(** * nomad.config.models: the behavioural core of the configuration schema

    A shallow embedding of the few pieces of [nomad/config/models.py] that
    compute something: [OptionsBase.filter], the [Options.filtered_*]
    queries, [NomadSettings.customize] and the pre-validator
    [WidgetScatterPlot.backwards_compatibility].  Python values are modelled
    as the code uses them: [Optional[List[str]]] as [option (list string)],
    a [dict] as an insertion-ordered association list, a raised exception
    as the [Raise] branch of [result]. *)

From Stdlib Require Import String Ascii ZArith Lia.
From stdpp Require Import base option list strings gmap pretty.

Set Warnings "-register-all".

(** ** Python results: a value or a raised exception *)

Inductive exn : Type :=
  | AttributeError
  | TypeError
  | KeyError
  | ValueError
  | AssertionError (msg : string).

Inductive result (A : Type) : Type :=
  | Ok (a : A)
  | Raise (e : exn).

Arguments Ok {A} a.
Arguments Raise {A} e.

#[global] Instance result_bind : MBind result := λ A B k r,
  match r with
  | Ok a => k a
  | Raise e => Raise e
  end.

#[global] Instance result_fmap : FMap result := λ A B f r,
  match r with
  | Ok a => Ok (f a)
  | Raise e => Raise e
  end.

(** ** Python containers *)

(** [x in l] for a list of strings. *)
Definition py_in (x : string) (l : list string) : bool := bool_decide (x ∈ l).

(** A [dict] with string keys: the items in insertion order. *)
Definition dict (V : Type) : Type := list (string * V).

Section dict.
Context {V : Type}.

(** [list(d.keys())] *)
Definition dict_keys (d : dict V) : list string := d.*1.

(** [d.get(k)]: [None] stands for an absent key. *)
Fixpoint dict_get (k : string) (d : dict V) : option V :=
  match d with
  | [] => None
  | (k', v) :: d' => if decide (k = k') then Some v else dict_get k d'
  end.

(** [k in d] *)
Definition dict_contains (k : string) (d : dict V) : bool :=
  match dict_get k d with Some _ => true | None => false end.

(** [d[k] = v]: an existing key keeps its position, a new one is appended. *)
Fixpoint dict_set (k : string) (v : V) (d : dict V) : dict V :=
  match d with
  | [] => [(k, v)]
  | (k', v') :: d' =>
      if decide (k = k') then (k', v) :: d' else (k', v') :: dict_set k v d'
  end.
End dict.

(** ** [OptionsBase] and [Options] *)

Module OptionsBase.

Record t : Type := Build {
  include : option (list string);
  exclude : option (list string)
}.

(** [OptionsBase.filter].  [not self.include] holds for [None] and for the
    empty list; [self.exclude and (...)] is falsy for both. *)
Definition filter (self : t) (value : string) : bool :=
  let included :=
    match include self with
    | None | Some [] => true
    | Some inc => py_in value inc || py_in "*" inc
    end in
  let excluded :=
    match exclude self with
    | None | Some [] => false
    | Some exc => py_in value exc || py_in "*" exc
    end in
  included && negb excluded.

End OptionsBase.

Module Options.

Record t (V : Type) : Type := Build {
  base :> OptionsBase.t;
  options : option (dict V)
}.
Arguments Build {V} base options.
Arguments base {V} _.
Arguments options {V} _.

Section methods.
Context {V : Type}.

(** [list(self.options.keys())]: [options] is declared
    [Optional[Dict[str, Any]]], and [None] has no [keys]. *)
Definition options_keys (self : t V) : result (list string) :=
  match options self with
  | Some d => Ok (dict_keys d)
  | None => Raise AttributeError
  end.

(** [Options.filtered_keys] *)
Definition filtered_keys (self : t V) : result (list string) :=
  include ←
    match OptionsBase.include self with
    | None => options_keys self
    | Some inc => if py_in "*" inc then options_keys self else Ok inc
    end;
  match OptionsBase.exclude self with
  | Some exc =>
      if py_in "*" exc then Ok []
      else Ok (List.filter (λ key, negb (py_in key exc)) include)
  | None => Ok (List.filter (λ key, negb (py_in key [])) include)
  end.

(** The comprehension [[f(key, self.options[key]) for key in keys
    if key in self.options]]; [key in None] raises [TypeError]. *)
Fixpoint select {A} (f : string → V → A) (opts : option (dict V))
    (keys : list string) : result (list A) :=
  match keys with
  | [] => Ok []
  | key :: keys' =>
      match opts with
      | None => Raise TypeError
      | Some d =>
          match dict_get key d with
          | Some v => r ← select f opts keys'; Ok (f key v :: r)
          | None => select f opts keys'
          end
      end
  end.

(** [Options.filtered_values] *)
Definition filtered_values (self : t V) : result (list V) :=
  keys ← filtered_keys self;
  select (λ _ v, v) (options self) keys.

(** [Options.filtered_items] *)
Definition filtered_items (self : t V) : result (list (string * V)) :=
  keys ← filtered_keys self;
  select (λ key v, (key, v)) (options self) keys.
End methods.

End Options.

(** ** [OptionsGlob] and [Filters] *)

Module OptionsGlob.

(** The two fields that [OptionsGlob] and its subclass [Filters] declare;
    neither class has a method in [models.py]. *)
Record t : Type := Build {
  include : option (list string);
  exclude : option (list string)
}.

(** Modelled from the spec: patterns and candidates are texts, sequences
    of characters.  A [string] holds the UTF-8 bytes of a text, and a
    character is the run of bytes of one code point: a byte and the
    continuation bytes that follow it. *)
Definition continuation (b : ascii) : bool :=
  (128 <=? N_of_ascii b)%N && (N_of_ascii b <? 192)%N.

(** Modelled from the spec: the characters of a text. *)
Fixpoint characters (bytes : list ascii) : list (list ascii) :=
  match bytes with
  | [] => []
  | b :: bytes' =>
      match characters bytes' with
      | (b' :: c) :: cs =>
          if continuation b'
          then (b :: b' :: c) :: cs
          else [b] :: (b' :: c) :: cs
      | cs => [b] :: cs
      end
  end.

(** Modelled from the spec: the code point of a character, by which the
    ranges of a character class are ordered. *)
Definition code_point (c : list ascii) : N :=
  match c with
  | [] => 0
  | b :: bs =>
      let n := N_of_ascii b in
      fold_left (λ acc b', acc * 64 + N_of_ascii b' mod 64)%N bs
        (if (n <? 128)%N then n
         else if (n <? 224)%N then n - 192
         else if (n <? 240)%N then n - 224
         else n - 240)%N
  end.

(** Modelled from the spec: the shell-style pattern language that the
    entries of an [OptionsGlob] are matched with is not part of
    [models.py].  A pattern is read as a sequence of items: [*] (any run
    of characters), [?] (one character), a bracketed character class
    (optionally negated with [!], with [a-z] ranges), or a literal
    character. *)
Inductive glob_item : Type :=
  | GStar
  | GAny
  | GChar (c : list ascii)
  | GClass (negated : bool) (ranges : list (list ascii * list ascii)).

(** Modelled from the spec: the text up to the closing bracket of a
    character class, and what follows it. *)
Fixpoint close_bracket (p : list (list ascii))
    : option (list (list ascii) * list (list ascii)) :=
  match p with
  | [] => None
  | c :: p' =>
      if decide (c = ["]"%char]) then Some ([], p')
      else '(body, rest) ← close_bracket p'; Some (c :: body, rest)
  end.

(** Modelled from the spec: a character class after its opening bracket;
    a [!] first negates it, a closing bracket first stands for itself. *)
Definition bracket (p : list (list ascii))
    : option (bool * list (list ascii) * list (list ascii)) :=
  let '(negated, p1) :=
    match p with
    | c :: p' => if decide (c = ["!"%char]) then (true, p') else (false, p)
    | [] => (false, p)
    end in
  match p1 with
  | c :: p2 =>
      if decide (c = ["]"%char])
      then '(body, rest) ← close_bracket p2; Some (negated, c :: body, rest)
      else '(body, rest) ← close_bracket p1; Some (negated, body, rest)
  | [] => None
  end.

(** Modelled from the spec: the ranges of a character class body; a
    character that is not part of an [a-z] range is the range from itself
    to itself. *)
Fixpoint class_ranges (body : list (list ascii))
    : list (list ascii * list ascii) :=
  match body with
  | [] => []
  | lo :: body' =>
      match body' with
      | dash :: hi :: body'' =>
          if decide (dash = ["-"%char]) then (lo, hi) :: class_ranges body''
          else (lo, lo) :: class_ranges body'
      | _ => (lo, lo) :: class_ranges body'
      end
  end.

(** Modelled from the spec: reading a pattern; an opening bracket that is
    never closed is a literal.  Every step consumes a character, so the
    length of the pattern is fuel enough. *)
Fixpoint parse_glob (fuel : nat) (p : list (list ascii)) : list glob_item :=
  match fuel, p with
  | 0, _ | _, [] => []
  | S fuel', c :: p' =>
      if decide (c = ["*"%char]) then GStar :: parse_glob fuel' p'
      else if decide (c = ["?"%char]) then GAny :: parse_glob fuel' p'
      else if decide (c = ["["%char]) then
        match bracket p' with
        | Some (negated, body, rest) =>
            GClass negated (class_ranges body) :: parse_glob fuel' rest
        | None => GChar c :: parse_glob fuel' p'
        end
      else GChar c :: parse_glob fuel' p'
  end.

(** Modelled from the spec: a character lies in a range of a character
    class when its code point is between those of the two ends. *)
Definition in_range (c : list ascii) (r : list ascii * list ascii) : bool :=
  (code_point r.1 <=? code_point c)%N && (code_point c <=? code_point r.2)%N.

(** Modelled from the spec: does the whole of [s] match the items? *)
Fixpoint match_items (items : list glob_item) (s : list (list ascii)) : bool :=
  match items with
  | [] => match s with [] => true | _ => false end
  | GStar :: items' =>
      (fix star (s : list (list ascii)) : bool :=
         match_items items' s
         || match s with [] => false | _ :: s' => star s' end) s
  | GAny :: items' =>
      match s with [] => false | _ :: s' => match_items items' s' end
  | GChar c :: items' =>
      match s with
      | [] => false
      | c' :: s' => bool_decide (c = c') && match_items items' s'
      end
  | GClass negated ranges :: items' =>
      match s with
      | [] => false
      | c' :: s' =>
          xorb negated (existsb (in_range c') ranges) && match_items items' s'
      end
  end.

(** Modelled from the spec: the text that a string holds. *)
Definition text (s : string) : list (list ascii) :=
  characters (list_ascii_of_string s).

(** Modelled from the spec: shell-style matching of a text against a
    pattern. *)
Definition fnmatch_text (value pattern : list (list ascii)) : bool :=
  match_items (parse_glob (length pattern) pattern) value.

(** Modelled from the spec: shell-style matching of a value against one
    pattern. *)
Definition fnmatch (value pattern : string) : bool :=
  fnmatch_text (text value) (text pattern).

(** Modelled from the spec: "value matches at least one pattern in the
    list". *)
Definition matches_any (value : string) (patterns : list string) : bool :=
  existsb (fnmatch value) patterns.

(** Modelled from the spec: the glob variant of the filter, the rule of
    [OptionsBase.filter] with each membership test replaced by
    [matches_any]; [models.py] declares only the two lists. *)
Definition glob_filter (self : t) (value : string) : bool :=
  let included :=
    match include self with
    | None | Some [] => true
    | Some inc => matches_any value inc
    end in
  let excluded :=
    match exclude self with
    | None | Some [] => false
    | Some exc => matches_any value exc
    end in
  included && negb excluded.

End OptionsGlob.

(** ** [NomadSettings]: configuration nodes on a heap

    [customize] copies a node and then assigns attributes of the copy, and
    the values it assigns are references to objects that the overrides also
    hold.  Objects therefore live in a heap and are named by their
    location; a value is an immutable atom or a reference. *)

Module Settings.

Abbreviation loc := nat.

Inductive value : Type :=
  | VNone
  | VBool (b : bool)
  | VInt (z : Z)
  | VStr (s : string)
  | VRef (l : loc).

#[export] Instance value_eq_dec : EqDecision value.
Proof. solve_decision. Defined.

(** A pydantic model instance carries the field names of its class
    ([__fields__], in declaration order) and its [__dict__]. *)
Inductive object : Type :=
  | OModel (fields : list string) (attrs : dict value)
  | ODict (items : dict value)
  | OList (elems : list value).

Abbreviation heap := (list object).

Definition children (o : object) : list value :=
  match o with
  | OModel _ attrs => attrs.*2
  | ODict items => items.*2
  | OList elems => elems
  end.

Definition map_object (f : value → value) (o : object) : object :=
  match o with
  | OModel fields attrs => OModel fields (prod_map id f <$> attrs)
  | ODict items => ODict (prod_map id f <$> items)
  | OList elems => OList (f <$> elems)
  end.

(** *** What can be observed of a value: its unfolding to a given depth *)

Inductive shape : Type :=
  | SModel (fields keys : list string)
  | SDict (keys : list string)
  | SList.

Definition shape_of (o : object) : shape :=
  match o with
  | OModel fields attrs => SModel fields (dict_keys attrs)
  | ODict items => SDict (dict_keys items)
  | OList _ => SList
  end.

Inductive tree : Type :=
  | TNone
  | TBool (b : bool)
  | TInt (z : Z)
  | TStr (s : string)
  | TObject (s : shape) (subtrees : list tree)
  | TCut
  | TDangling.

(** The contents of [v] down to [depth] references, locations erased:
    two values are deeply equal when they unfold alike at every depth. *)
Fixpoint unfold (depth : nat) (h : heap) (v : value) : tree :=
  match v with
  | VNone => TNone
  | VBool b => TBool b
  | VInt z => TInt z
  | VStr s => TStr s
  | VRef l =>
      match depth with
      | 0 => TCut
      | S depth' =>
          match h !! l with
          | Some o => TObject (shape_of o) (unfold depth' h <$> children o)
          | None => TDangling
          end
      end
  end.

Definition deep_eq (h1 : heap) (v1 : value) (h2 : heap) (v2 : value) : Prop :=
  ∀ depth, unfold depth h1 v1 = unfold depth h2 v2.

(** The objects a value gives access to. *)
Inductive reachable (h : heap) : value → loc → Prop :=
  | reachable_here l : reachable h (VRef l) l
  | reachable_child l o v l' :
      h !! l = Some o → v ∈ children o → reachable h v l' →
      reachable h (VRef l) l'.

(** Every reference held by an object of the heap is to an object of the
    heap. *)
Definition value_closed (n : nat) (v : value) : bool :=
  match v with
  | VRef l => bool_decide (l < n)
  | _ => true
  end.

Definition heap_closed (h : heap) : bool :=
  forallb (λ o, forallb (value_closed (length h)) (children o)) h.

(** The object at [l] is a model instance of a class with these fields. *)
Definition model_at (h : heap) (l : loc) (fields : list string) : Prop :=
  ∃ attrs, h !! l = Some (OModel fields attrs).

(** [h'] differs from [h] in the attributes of the model at [rv] at
    most. *)
Definition frame (rv : loc) (h h' : heap) : Prop :=
  length h' = length h
  ∧ (∀ l, l ≠ rv → h' !! l = h !! l)
  ∧ (∀ fields, model_at h rv fields → model_at h' rv fields).

(** *** The pydantic and Python primitives that [customize] calls *)

(** [copy.deepcopy]: the copy is an image of the object graph at fresh
    locations, with the sharing and the cycles of the original, and atoms
    are not copied.  The image is taken of the whole heap, every object
    moved up by the size of the heap: the copies of objects that the
    argument does not reach are garbage that no reference leads to. *)
Definition shift_value (k : nat) (v : value) : value :=
  match v with
  | VRef l => VRef (l + k)
  | _ => v
  end.

Abbreviation image h :=
  (h ++ (map_object (shift_value (length h)) <$> h))%list.

Definition deepcopy (h : heap) (v : value) : heap * value :=
  (image h, shift_value (length h) v).

(** [BaseModel.copy(deep=True)] *)
Definition copy_deep (h : heap) (self : loc) : heap * result loc :=
  match h !! self with
  | Some (OModel _ _) => ((deepcopy h (VRef self)).1, Ok (self + length h))
  | _ => (h, Raise AttributeError)
  end.

(** [getattr(obj, name)] on a model instance. *)
Definition getattr (h : heap) (l : loc) (name : string) : result value :=
  match h !! l with
  | Some (OModel _ attrs) =>
      match dict_get name attrs with
      | Some v => Ok v
      | None => Raise AttributeError
      end
  | _ => Raise AttributeError
  end.

(** [DUNDER_ATTRIBUTES] of pydantic v1 ([pydantic/utils.py]): the names
    that [BaseModel.__setattr__] hands to [object.__setattr__] without
    looking at the fields of the class. *)
Definition DUNDER_ATTRIBUTES : list string :=
  [ "__annotations__"; "__classcell__"; "__doc__"; "__module__";
    "__orig_bases__"; "__orig_class__"; "__qualname__"; "__firstlineno__";
    "__static_attributes__"; "__classdictcell__" ].

(** [BaseModel.__setattr__] under the configuration that every model of
    [models.py] has (no private attributes, no [Extra.allow], mutation
    allowed, no validation on assignment).  A name of
    [DUNDER_ATTRIBUTES] is stored first of all, by [object.__setattr__],
    which puts it in the [__dict__] of the instance; any other name that
    is not a field of the class is refused with [ValueError], and a field
    is stored in [__dict__]. *)
Definition setattr (h : heap) (l : loc) (name : string) (v : value)
    : result heap :=
  match h !! l with
  | Some (OModel fields attrs) =>
      if py_in name DUNDER_ATTRIBUTES
      then Ok (<[l := OModel fields (dict_set name v attrs)]> h)
      else if py_in name fields
      then Ok (<[l := OModel fields (dict_set name v attrs)]> h)
      else Raise ValueError
  | _ => Raise AttributeError
  end.

(** [bool(v)]: a model instance is always true, a container is true when
    it is not empty. *)
Definition truthy (h : heap) (v : value) : bool :=
  match v with
  | VNone => false
  | VBool b => b
  | VInt z => negb (z =? 0)%Z
  | VStr s => negb (String.eqb s "")
  | VRef l =>
      match h !! l with
      | Some (OModel _ _) => true
      | Some (ODict items) => match items with [] => false | _ => true end
      | Some (OList elems) => match elems with [] => false | _ => true end
      | None => false
      end
  end.

Section customize.
(** The text that an f-string gives for a value. *)
Variable py_format : heap → value → string.

(** The loop over [custom_settings.__fields__.keys()]. *)
Fixpoint customize_fields (h : heap) (rv custom_settings : loc)
    (names : list string) : heap * result unit :=
  match names with
  | [] => (h, Ok ())
  | field_name :: names' =>
      match v ← getattr h custom_settings field_name;
            setattr h rv field_name v with
      | Ok h' => customize_fields h' rv custom_settings names'
      | Raise _ =>
          (h, Raise (AssertionError ("Invalid setting: " +:+ field_name)))
      end
  end.

(** The loop over [custom_settings.items()]. *)
Fixpoint customize_items (h : heap) (rv : loc) (items : dict value)
    : heap * result unit :=
  match items with
  | [] => (h, Ok ())
  | (key, VNone) :: items' => customize_items h rv items'
  | (key, value) :: items' =>
      match setattr h rv key value with
      | Ok h' => customize_items h' rv items'
      | Raise _ =>
          (h, Raise (AssertionError
                ("Invalid setting: (" +:+ key +:+ ": "
                   +:+ py_format h value +:+ ")")))
      end
  end.

(** [NomadSettings.customize]: the heap after the call, and the node
    returned or the exception raised. *)
Definition customize (h : heap) (self : loc) (custom_settings : value)
    : heap * result value :=
  match copy_deep h self with
  | (h1, Raise e) => (h1, Raise e)
  | (h1, Ok rv) =>
      if truthy h1 custom_settings then
        match custom_settings with
        | VRef l =>
            match h1 !! l with
            | Some (OModel fields _) =>
                let '(h2, r) := customize_fields h1 rv l fields in
                (h2, (λ _, VRef rv) <$> r)
            | Some (ODict items) =>
                let '(h2, r) := customize_items h1 rv items in
                (h2, (λ _, VRef rv) <$> r)
            | _ => (h1, Ok (VRef rv))
            end
        | _ => (h1, Ok (VRef rv))
        end
      else (h1, Ok (VRef rv))
  end.
End customize.

End Settings.

(** ** [WidgetScatterPlot] *)

Module WidgetScatterPlot.

(** The raw input of a pre-validator: parsed JSON or YAML.  The validator
    looks keys up, sets and deletes them, and never iterates, so a mapping
    is a finite map. *)
Inductive pyval : Type :=
  | PNone
  | PBool (b : bool)
  | PInt (z : Z)
  | PStr (s : string)
  | PList (elems : list pyval)
  | PDict (items : gmap string pyval).

(** [{'quantity': v}] *)
Definition quantity (v : pyval) : pyval := PDict {[ "quantity" := v ]}.

(** [del values[key]]: raises [KeyError] when the key is absent. *)
Definition del_item (key : string) (values : gmap string pyval)
    : result (gmap string pyval) :=
  match values !! key with
  | Some _ => Ok (delete key values)
  | None => Raise KeyError
  end.

(** The rewriting of [values['x']] and of [values['y']]. *)
Definition axis_compatibility (name : string) (values : gmap string pyval)
    : gmap string pyval :=
  match values !! name with
  | Some (PStr s) => <[name := quantity (PStr s)]> values
  | _ => values
  end.

(** [WidgetScatterPlot.backwards_compatibility]; [values.get('color')] is
    [None] for an absent key and for a key bound to [None]. *)
Definition backwards_compatibility (values : gmap string pyval)
    : result (gmap string pyval) :=
  values ←
    match values !! "color" with
    | None | Some PNone => Ok values
    | Some color =>
        del_item "color"
          (<["markers" := PDict {[ "color" := quantity color ]}]> values)
    end;
  Ok (axis_compatibility "y" (axis_compatibility "x" values)).

End WidgetScatterPlot.

(** Shapes of the input of [WidgetScatterPlot]. *)

Module ScatterPlotInput.
Import WidgetScatterPlot.

(** The mapping has a [color] other than [None]. *)
Definition has_color (values : gmap string pyval) : bool :=
  match values !! "color" with
  | None | Some PNone => false
  | Some _ => true
  end.

(** The mapping does not bind [name] to a string. *)
Definition no_string (name : string) (values : gmap string pyval) : Prop :=
  ∀ s, values !! name ≠ Some (PStr s).

End ScatterPlotInput.

(** ** [UnitSystem] *)

Module UnitSystem.

(** The raw input of the pre-validator.  A mapping keeps the order of its
    keys: the validator iterates over [units], and the order decides
    which error is raised first. *)
Inductive raw : Type :=
  | RNone
  | RBool (b : bool)
  | RInt (z : Z)
  | RStr (s : string)
  | RList (elems : list raw)
  | RDict (items : list (string * raw)).

(** The module-level list [dimensions]. *)
Definition dimensions : list string :=
  [ "dimensionless"; "length"; "mass"; "time"; "current"; "temperature";
    "luminosity"; "luminous_flux"; "substance"; "angle"; "information";
    "force"; "energy"; "power"; "pressure"; "charge"; "resistance";
    "conductance"; "inductance"; "magnetic_flux"; "magnetic_field";
    "frequency"; "luminance"; "illuminance"; "electric_potential";
    "capacitance"; "activity" ].

(** The table [SI] of the validator. *)
Definition SI : dict string :=
  [ ("dimensionless", "dimensionless"); ("length", "m"); ("mass", "kg");
    ("time", "s"); ("current", "A"); ("temperature", "K");
    ("luminosity", "cd"); ("luminous_flux", "lm"); ("substance", "mol");
    ("angle", "rad"); ("information", "bit"); ("force", "N");
    ("energy", "J"); ("power", "W"); ("pressure", "Pa"); ("charge", "C");
    ("resistance", "Ω"); ("conductance", "S"); ("inductance", "H");
    ("magnetic_flux", "Wb"); ("magnetic_field", "T"); ("frequency", "Hz");
    ("luminance", "nit"); ("illuminance", "lx");
    ("electric_potential", "V"); ("capacitance", "F"); ("activity", "kat") ].

(** The double quote, as a string. *)
Definition dquote : string := String (ascii_of_nat 34) EmptyString.

(** [repr] of a list of strings that need no escaping, as an f-string
    renders [dimensions]. *)
Definition py_repr_strings (l : list string) : string :=
  "[" +:+ String.concat ", " ((λ s, "'" +:+ s +:+ "'") <$> l) +:+ "]".

(** What [ureg.Unit(definition)] does: it returns a unit, raises
    [UndefinedUnitError], or raises something else. *)
Inductive unit_lookup : Type :=
  | UnitFound
  | UndefinedUnitError
  | UnitFailed (e : exn).

(** [{'definition': SI[dimension]}] *)
Definition si_unit (definition : string) : raw :=
  RDict [("definition", RStr definition)].

(** [value['definition']]: only a mapping can be indexed by a string. *)
Definition getitem_definition (value : raw) : result raw :=
  match value with
  | RDict items =>
      match dict_get "definition" items with
      | Some definition => Ok definition
      | None => Raise KeyError
      end
  | _ => Raise TypeError
  end.

(** The loop "Check that only supported dimensions and units are used". *)
Fixpoint check_dimensions (keys : list string) : result unit :=
  match keys with
  | [] => Ok ()
  | key :: keys' =>
      if py_in key dimensions then check_dimensions keys'
      else Raise (AssertionError
             ("Unsupported dimension " +:+ dquote +:+ key +:+ dquote
                +:+ " used in a unit system. The supported dimensions are: "
                +:+ py_repr_strings dimensions +:+ "."))
  end.

(** The loop "Fill missing units with SI defaults"; [SI[dimension]] raises
    [KeyError] for a dimension that the table does not have. *)
Fixpoint fill_defaults (dims : list string) (units : dict raw)
    : result (dict raw) :=
  match dims with
  | [] => Ok units
  | dimension :: dims' =>
      if dict_contains dimension units then fill_defaults dims' units
      else
        match dict_get dimension SI with
        | Some definition =>
            fill_defaults dims' (dict_set dimension (si_unit definition) units)
        | None => Raise KeyError
        end
  end.

(** The entries that the loop adds: one for each of [dims] that [units]
    lacks, in the order of [dims]. *)
Definition defaults_for (dims : list string) (units : dict raw) : dict raw :=
  omap (λ dimension,
          (λ definition, (dimension, si_unit definition))
            <$> dict_get dimension SI)
       (List.filter (λ dimension, negb (dict_contains dimension units)) dims).

Section validator.
(** The unit registry of [nomad.units]. *)
Variable ureg_Unit : raw → unit_lookup.
(** The text that an f-string gives for a value. *)
Variable py_format : raw → string.

(** The loop "Check that units are available in registry". *)
Fixpoint check_units (values : list raw) : result unit :=
  match values with
  | [] => Ok ()
  | value :: values' =>
      definition ← getitem_definition value;
      match ureg_Unit definition with
      | UnitFound => check_units values'
      | UndefinedUnitError =>
          Raise (AssertionError
            ("Unsupported unit " +:+ dquote +:+ py_format definition
               +:+ dquote +:+ " used in a unit registry."))
      | UnitFailed e => Raise e
      end
  end.

(** [UnitSystem.__dimensions_and_si_defaults]: the mapping that the
    validator returns (it fills [units] in place and returns [values]).
    [values.get('units', {})] is the empty mapping for an absent key only;
    whatever is not a mapping has no [keys]. *)
Definition dimensions_and_si_defaults (values : dict raw)
    : result (dict raw) :=
  match default (RDict []) (dict_get "units" values) with
  | RDict units =>
      _ ← check_dimensions (dict_keys units);
      units ← fill_defaults dimensions units;
      _ ← check_units units.*2;
      Ok (dict_set "units" (RDict units) values)
  | _ => Raise AttributeError
  end.
(** What the validator takes for [units]. *)
Definition given_units (values : dict raw) : raw :=
  default (RDict []) (dict_get "units" values).

(** An entry of [units] that passes the last loop: a mapping with a
    [definition] that the registry has. *)
Definition unit_found (value : raw) : Prop :=
  ∃ definition,
    getitem_definition value = Ok definition
    ∧ ureg_Unit definition = UnitFound.
End validator.

End UnitSystem.

(** * Specification-side vocabulary

    The predicates below follow the words of the specification; the
    theorems compare them with the definitions above, which follow the
    code. *)

Module Spec.
Import (coercions) Options.

(** "[x] in [l]", for an optional list. *)
Definition is_member (x : string) (l : option (list string)) : Prop :=
  ∃ xs, l = Some xs ∧ x ∈ xs.

Definition empty_or_absent (l : option (list string)) : Prop :=
  l = None ∨ l = Some [].

(** "included := include is empty/absent OR value in include OR '*' in
    include" *)
Definition included (value : string) (include : option (list string)) : Prop :=
  empty_or_absent include ∨ is_member value include ∨ is_member "*" include.

(** "excluded := exclude is non-empty AND (value in exclude OR '*' in
    exclude)" *)
Definition excluded (value : string) (exclude : option (list string)) : Prop :=
  ¬ empty_or_absent exclude
  ∧ (is_member value exclude ∨ is_member "*" exclude).

(** "remove any key present in exclude", keeping the order of the
    starting list. *)
Definition without_excluded (exclude : option (list string))
    (start : list string) : list string :=
  List.filter (λ key, negb (py_in key (default [] exclude))) start.

(** "start from include if given and not containing '*'; if include is
    absent or contains '*', start from all keys of options". *)
Definition starts_from {V} (self : Options.t V) (start : list string) : Prop :=
  (∃ inc, OptionsBase.include self = Some inc ∧ ("*" ∉ inc) ∧ start = inc)
  ∨ ((OptionsBase.include self = None
      ∨ is_member "*" (OptionsBase.include self))
     ∧ ∃ d, Options.options self = Some d ∧ start = dict_keys d).

(** "value matches at least one pattern in the list", for an optional
    list. *)
Definition matches (value : string) (patterns : option (list string)) : Prop :=
  ∃ ps p, patterns = Some ps ∧ p ∈ ps ∧ OptionsGlob.fnmatch value p = true.

(** Modelled from the spec: "[*] matches any run of characters, [?]
    matches one character, character classes in brackets"; the runs of
    characters that one item of a pattern matches. *)
Inductive item_matches : OptionsGlob.glob_item → list (list ascii) → Prop :=
  | star_matches run : item_matches OptionsGlob.GStar run
  | any_matches c : item_matches OptionsGlob.GAny [c]
  | char_matches c : item_matches (OptionsGlob.GChar c) [c]
  | class_matches negated ranges c :
      (negated = false ↔
         ∃ lo hi, (lo, hi) ∈ ranges
           ∧ (OptionsGlob.code_point lo ≤ OptionsGlob.code_point c
              ≤ OptionsGlob.code_point hi)%N) →
      item_matches (OptionsGlob.GClass negated ranges) [c].

(** Modelled from the spec: a text matches a pattern when it is made of
    runs that the items of the pattern match, one after the other. *)
Inductive items_match
    : list OptionsGlob.glob_item → list (list ascii) → Prop :=
  | nil_match : items_match [] []
  | cons_match item items run rest :
      item_matches item run → items_match items rest →
      items_match (item :: items) (run ++ rest).

(** Modelled from the spec: "membership tests are replaced by value
    matches at least one pattern"; the names that a list of patterns
    stands for at a given value, each pattern that matches the value
    replaced by the value and any other by a name that is neither the
    value nor [*]. *)
Definition names_matched (value : string) (patterns : option (list string))
    : option (list string) :=
  fmap (M := list)
    (λ p, if OptionsGlob.fnmatch value p then value else "**" +:+ value)
  <$> patterns.

(** A pattern without special characters, which names one value; the
    exact-match filter knows such entries and the wildcard alone. *)
Definition plain_char (c : ascii) : bool :=
  negb (bool_decide (c = "*"%char)) && negb (bool_decide (c = "?"%char))
  && negb (bool_decide (c = "["%char)).

Definition plain (p : string) : bool :=
  forallb plain_char (list_ascii_of_string p).

Definition plain_or_wildcard (p : string) : bool :=
  plain p || bool_decide (p = "*").

(** Modelled from the spec: a text without special characters. *)
Definition plain_text (p : list (list ascii)) : Prop :=
  ∀ c, c ∈ p → c ≠ ["*"%char] ∧ c ≠ ["?"%char] ∧ c ≠ ["["%char].

(** A dangling name: an entry of the include list that is not an option. *)
Definition dangling {V} (self : Options.t V) (name : string) : Prop :=
  is_member name (OptionsBase.include self)
  ∧ ∃ d, Options.options self = Some d ∧ name ∉ dict_keys d.

End Spec.

(** * Instances used as examples *)

Module Examples.

Definition opts (include exclude : option (list string))
    (options : option (dict Z)) : Options.t Z :=
  Options.Build (OptionsBase.Build include exclude) options.

(** [Options(options={'a': 1, 'b': 2, 'c': 3}, include=['a', 'c'],
    exclude=['c'])] *)
Definition abc : Options.t Z :=
  opts (Some ["a"; "c"]) (Some ["c"]) (Some [("a", 1); ("b", 2); ("c", 3)]%Z).

(** [Options(options={'a': 1}, include=['z'])] *)
Definition dangling_z : Options.t Z :=
  opts (Some ["z"]) None (Some [("a", 1%Z)]).

(** [Options(options={'a': 1}, include=['z'], exclude=['z'])] *)
Definition dangling_z_excluded : Options.t Z :=
  opts (Some ["z"]) (Some ["z"]) (Some [("a", 1%Z)]).

(** [Options(options={'a': 1}, exclude=['*'])] *)
Definition all_excluded : Options.t Z :=
  opts None (Some ["*"]) (Some [("a", 1%Z)]).

(** [Options(options=None, exclude=['*'])], which is also what
    [FilterMenus(exclude=['*'])] is: [FilterMenus.options] has no
    default. *)
Definition all_excluded_no_options : Options.t Z :=
  opts None (Some ["*"]) None.

(** [Options(options={'a': 1}, include=[])] *)
Definition empty_include : Options.t Z :=
  opts (Some []) None (Some [("a", 1%Z)]).

(** [Options(options={'a': 1, 'b': 2, 'c': 3}, exclude=['b'])] *)
Definition abc_without_b : Options.t Z :=
  opts None (Some ["b"]) (Some [("a", 1); ("b", 2); ("c", 3)]%Z).

(** [Options(options=None, include=['a'])] *)
Definition no_options_a : Options.t Z :=
  opts (Some ["a"]) None None.

(** Nodes of a class with the integer fields [x] and [y]. *)
Definition xy (x y : Z) : Settings.object :=
  Settings.OModel ["x"; "y"] [("x", Settings.VInt x); ("y", Settings.VInt y)].

(** A heap with the base [{x: 1, y: 2}] at 0, the overriding node
    [{x: 1, y: 99}] at 1 and the mappings [{'x': None, 'y': 5}],
    [{'nonexistent_field': None}], [{'nonexistent_field': 1}] and [{}]
    at 2 to 5. *)
Definition store : list Settings.object :=
  [ xy 1 2; xy 1 99;
    Settings.ODict [("x", Settings.VNone); ("y", Settings.VInt 5)];
    Settings.ODict [("nonexistent_field", Settings.VNone)];
    Settings.ODict [("nonexistent_field", Settings.VInt 1)];
    Settings.ODict [] ].

(** A heap with a base at 0 that holds the list at 1, and the empty
    mapping at 2. *)
Definition nested_store : list Settings.object :=
  [ Settings.OModel ["x"; "tags"]
      [("x", Settings.VInt 1); ("tags", Settings.VRef 1)];
    Settings.OList [Settings.VStr "a"; Settings.VStr "b"];
    Settings.ODict [] ].

(** A heap with a base at 0 that holds the list at 1, an overriding node
    at 2 and an overriding mapping at 4 that both hold the list at 3. *)
Definition shared_store : list Settings.object :=
  [ Settings.OModel ["x"; "tags"]
      [("x", Settings.VInt 1); ("tags", Settings.VRef 1)];
    Settings.OList [Settings.VStr "a"];
    Settings.OModel ["tags"] [("tags", Settings.VRef 3)];
    Settings.OList [Settings.VStr "c"];
    Settings.ODict [("tags", Settings.VRef 3)] ].

(** A heap with the base [{x: 1, y: 2}] at 0 and the mapping
    [{'x': None, 'y': 3, 'first': 1, 'second': 2}] at 1. *)
Definition invalid_store : list Settings.object :=
  [ xy 1 2;
    Settings.ODict
      [ ("x", Settings.VNone); ("y", Settings.VInt 3);
        ("first", Settings.VInt 1); ("second", Settings.VInt 2) ] ].

(** A heap with the base [{x: 1, y: 2}] at 0 and the mappings
    [{'__doc__': 'x'}] and [{'__doc__': 'x', 'zz': 1}] at 1 and 2. *)
Definition dunder_store : list Settings.object :=
  [ xy 1 2;
    Settings.ODict [("__doc__", Settings.VStr "x")];
    Settings.ODict [("__doc__", Settings.VStr "x"); ("zz", Settings.VInt 1)] ].

(** A rendering of values for the error messages; objects are not
    rendered. *)
Definition show (h : list Settings.object) (v : Settings.value) : string :=
  match v with
  | Settings.VNone => "None"
  | Settings.VBool true => "True"
  | Settings.VBool false => "False"
  | Settings.VInt z => pretty z
  | Settings.VStr s => s
  | Settings.VRef _ => "<object>"
  end.

(** A registry with the SI units and a few others. *)
Definition registry (definition : UnitSystem.raw) : UnitSystem.unit_lookup :=
  match definition with
  | UnitSystem.RStr s =>
      if py_in s (UnitSystem.SI.*2 ++ ["Å"; "fs"; "eV"; "GPa"])
      then UnitSystem.UnitFound
      else UnitSystem.UndefinedUnitError
  | _ => UnitSystem.UnitFailed TypeError
  end.

Definition show_raw (v : UnitSystem.raw) : string :=
  match v with
  | UnitSystem.RStr s => s
  | _ => "<value>"
  end.

(** [{'label': 'Custom', 'units': {'length': {'definition': 'Å'},
    'energy': {'definition': 'eV'}}}] *)
Definition custom_units : dict UnitSystem.raw :=
  [ ("label", UnitSystem.RStr "Custom");
    ("units",
     UnitSystem.RDict
       [ ("length", UnitSystem.si_unit "Å");
         ("energy", UnitSystem.si_unit "eV") ]) ].

(** [{'units': {'length': {'definition': 'parsec'},
    'colour': {'definition': 'red'}, 'size': {'definition': 'm'}}}] *)
Definition colour_units : dict UnitSystem.raw :=
  [ ("units",
     UnitSystem.RDict
       [ ("length", UnitSystem.si_unit "parsec");
         ("colour", UnitSystem.si_unit "red");
         ("size", UnitSystem.si_unit "m") ]) ].

(** [{'units': {'length': {'definition': 'Å'},
    'time': {'definition': 'fortnight'}}}] *)
Definition fortnight_units : dict UnitSystem.raw :=
  [ ("units",
     UnitSystem.RDict
       [ ("length", UnitSystem.si_unit "Å");
         ("time", UnitSystem.si_unit "fortnight") ]) ].

(** [{'units': {'length': 'm'}}] *)
Definition string_units : dict UnitSystem.raw :=
  [ ("units", UnitSystem.RDict [("length", UnitSystem.RStr "m")]) ].

End Examples.

(** * Theorems *)

(** ** Association lists as dictionaries *)

Section dict_facts.
Context {V : Type}.
Implicit Types (d : dict V) (k : string) (v : V).

Lemma py_in_true x (l : list string) : py_in x l = true ↔ x ∈ l.
Proof. unfold py_in. apply bool_decide_eq_true. Qed.

Lemma py_in_false x (l : list string) : py_in x l = false ↔ x ∉ l.
Proof. unfold py_in. apply bool_decide_eq_false. Qed.

Lemma dict_get_Some_keys k d v : dict_get k d = Some v → k ∈ dict_keys d.
Proof.
  induction d as [|[k' v'] d IH]; simpl; [done|].
  case_decide; subst; rewrite elem_of_cons; auto.
Qed.

Lemma dict_get_None_keys k d : dict_get k d = None ↔ k ∉ dict_keys d.
Proof.
  induction d as [|[k' v'] d IH]; simpl.
  - split; [intros _; apply not_elem_of_nil | done].
  - rewrite not_elem_of_cons. case_decide; subst; [|tauto].
    split; [done | tauto].
Qed.

Lemma dict_contains_keys k d : dict_contains k d = true ↔ k ∈ dict_keys d.
Proof.
  unfold dict_contains. destruct (dict_get k d) eqn:E.
  - split; [intros _; eapply dict_get_Some_keys; eauto | done].
  - apply dict_get_None_keys in E. split; [done | tauto].
Qed.

Lemma dict_get_set_eq k v d : dict_get k (dict_set k v d) = Some v.
Proof.
  induction d as [|[k' v'] d IH]; simpl.
  - by rewrite decide_True.
  - case_decide; subst; simpl; [by rewrite decide_True | by rewrite decide_False].
Qed.

Lemma dict_get_set_ne k k' v d :
  k ≠ k' → dict_get k' (dict_set k v d) = dict_get k' d.
Proof.
  intros Hne. induction d as [|[k0 v0] d IH]; simpl.
  - by rewrite decide_False.
  - case_decide; subst; simpl; [by rewrite !decide_False | by rewrite IH].
Qed.
End dict_facts.

(** ** The exact-match filter *)

Module OptionsBaseFacts.
Import OptionsBase.

Lemma member_Some x (l : list string) : Spec.is_member x (Some l) ↔ x ∈ l.
Proof.
  unfold Spec.is_member. split.
  - by intros (xs & [= <-] & Hx).
  - eauto.
Qed.

Lemma member_None x : ¬ Spec.is_member x None.
Proof. by intros (xs & ? & _). Qed.

(** C1.  [filter] answers [true] exactly when the value is included
    (the include list is absent or empty, or holds the value or the
    wildcard) and not excluded (the exclude list is non-empty and holds
    the value or the wildcard); so a value that the exclude list names,
    or any value when the list holds the wildcard, is refused whatever
    the include list says. *)
Theorem filter_included_and_not_excluded (self : t) (value : string) :
  (filter self value = true ↔
     Spec.included value (include self) ∧ ¬ Spec.excluded value (exclude self))
  ∧ (Spec.is_member value (exclude self) ∨ Spec.is_member "*" (exclude self)
     → filter self value = false).
Proof.
  assert (Hinc :
    match include self with
    | None | Some [] => true
    | Some inc => py_in value inc || py_in "*" inc
    end = true ↔ Spec.included value (include self)).
  { unfold Spec.included, Spec.empty_or_absent.
    destruct (include self) as [[|x inc]|].
    - split; auto.
    - rewrite orb_true_iff, !py_in_true, !member_Some.
      split; [tauto | intros [[|]|]; [done | done | tauto]].
    - split; auto. }
  assert (Hexc :
    match exclude self with
    | None | Some [] => false
    | Some exc => py_in value exc || py_in "*" exc
    end = true ↔ Spec.excluded value (exclude self)).
  { unfold Spec.excluded, Spec.empty_or_absent.
    destruct (exclude self) as [[|x exc]|].
    - split; [done | intros [H _]; destruct H; auto].
    - rewrite orb_true_iff, !py_in_true, !member_Some.
      split; [intros H; split; [intros [|]; done | done] | tauto].
    - split; [done | intros [H _]; destruct H; auto]. }
  unfold filter. split.
  - rewrite andb_true_iff, negb_true_iff, Hinc, <- Hexc.
    by rewrite not_true_iff_false.
  - intros Hm. apply andb_false_iff. right. apply negb_false_iff, Hexc.
    split; [|done].
    intros [E|E]; rewrite E in Hm.
    + destruct Hm as [Hm|Hm]; by apply member_None in Hm.
    + destruct Hm as [Hm|Hm]; apply member_Some in Hm; by apply elem_of_nil in Hm.
Qed.

End OptionsBaseFacts.

(** ** The keyed queries of [Options] *)

Module OptionsFacts.
Import OptionsBase Options OptionsBaseFacts.

Section facts.
Context {V : Type}.
Implicit Types (self : Options.t V) (d : dict V).

Lemma without_excluded_None (start : list string) :
  Spec.without_excluded None start = start.
Proof.
  unfold Spec.without_excluded. simpl.
  induction start as [|k start IH]; simpl; [done|].
  by rewrite IH.
Qed.

Lemma elem_of_without_excluded exclude (start : list string) k :
  k ∈ Spec.without_excluded exclude start
  ↔ k ∈ start ∧ ¬ Spec.is_member k exclude.
Proof.
  unfold Spec.without_excluded.
  rewrite list_elem_of_In, filter_In, <- list_elem_of_In.
  rewrite negb_true_iff, py_in_false.
  destruct exclude as [exc|]; simpl.
  - by rewrite member_Some.
  - split; [intros [? _]; split; [done | apply member_None] |].
    intros [? _]. split; [done | apply not_elem_of_nil].
Qed.

Lemma without_excluded_sublist exclude (start : list string) :
  sublist (Spec.without_excluded exclude start) start.
Proof.
  unfold Spec.without_excluded.
  induction start as [|k start IH]; simpl; [constructor|].
  destruct (negb _); by constructor.
Qed.

(** What [filtered_keys] starts from. *)
Lemma starts_from_include self start :
  Spec.starts_from self start →
  match include self with
  | None => options_keys self
  | Some inc => if py_in "*" inc then options_keys self else Ok inc
  end = Ok start.
Proof.
  unfold options_keys.
  intros [(inc & -> & Hstar & ->) | [Hinc (d & -> & ->)]].
  - apply py_in_false in Hstar. by rewrite Hstar.
  - destruct Hinc as [-> | (inc & -> & Hstar)]; [done|].
    apply py_in_true in Hstar. by rewrite Hstar.
Qed.

Lemma filtered_keys_no_wildcard self start :
  ¬ Spec.is_member "*" (exclude self) →
  Spec.starts_from self start →
  filtered_keys self = Ok (Spec.without_excluded (exclude self) start).
Proof.
  intros Hexc Hstart. unfold filtered_keys.
  rewrite (starts_from_include _ _ Hstart). simpl.
  destruct (exclude self) as [exc|]; [|done].
  rewrite member_Some in Hexc. apply py_in_false in Hexc.
  by rewrite Hexc.
Qed.

Lemma filtered_keys_wildcard self :
  Spec.is_member "*" (exclude self) →
  filtered_keys self
  = match include self, options self with
    | None, None => Raise AttributeError
    | Some inc, None =>
        if py_in "*" inc then Raise AttributeError else Ok []
    | _, Some _ => Ok []
    end.
Proof.
  intros (exc & Hexc & Hstar). apply py_in_true in Hstar.
  unfold filtered_keys, options_keys. rewrite Hexc.
  destruct (include self) as [inc|]; [destruct (py_in "*" inc)|];
    destruct (options self) as [d|]; simpl; by rewrite ?Hstar.
Qed.

(** The comprehension over a mapping never raises. *)
Lemma select_Some {A} (f : string → V → A) d (keys : list string) :
  select f (Some d) keys = Ok (omap (λ k, f k <$> dict_get k d) keys).
Proof.
  induction keys as [|k keys IH]; simpl; [done|].
  rewrite IH. by destruct (dict_get k d).
Qed.

Lemma filtered_keys_total self d :
  options self = Some d → ∃ keys, filtered_keys self = Ok keys.
Proof.
  intros Hd. unfold filtered_keys, options_keys. rewrite Hd.
  destruct (include self) as [inc|]; [destruct (py_in "*" inc)|]; simpl;
    (destruct (exclude self) as [exc|]; [destruct (py_in "*" exc)|]); eauto.
Qed.

Lemma omap_items_keys d (keys : list string) :
  (omap (λ k, pair k <$> dict_get k d) keys).*1
  = List.filter (λ k, dict_contains k d) keys.
Proof.
  unfold dict_contains.
  induction keys as [|k keys IH]; [done|]. simpl List.filter. simpl omap.
  destruct (dict_get k d); csimpl; by rewrite IH.
Qed.

Lemma omap_items_values d (keys : list string) :
  (omap (λ k, pair k <$> dict_get k d) keys).*2
  = omap (λ k, id <$> dict_get k d) keys.
Proof.
  induction keys as [|k keys IH]; [done|]. simpl omap.
  destruct (dict_get k d); csimpl; by rewrite IH.
Qed.

Lemma filter_split_length (P : string → bool) (keys : list string) :
  length keys
  = length (List.filter P keys) + length (List.filter (λ k, negb (P k)) keys).
Proof.
  induction keys as [|k keys IH]; simpl; [done|].
  destruct (P k); simpl; lia.
Qed.

Lemma filtered_queries_total self d :
  options self = Some d →
  ∃ keys,
    filtered_keys self = Ok keys
    ∧ filtered_values self = Ok (omap (λ k, id <$> dict_get k d) keys)
    ∧ filtered_items self = Ok (omap (λ k, pair k <$> dict_get k d) keys).
Proof.
  intros Hd. destruct (filtered_keys_total _ _ Hd) as [keys Hkeys].
  exists keys. unfold filtered_values, filtered_items.
  rewrite Hkeys, Hd. simpl. by rewrite !select_Some.
Qed.

(** C5 (amended).  When the exclude list does not hold the wildcard,
    [filtered_keys] returns its starting list (the include list when it
    is given without the wildcard, the keys of [options] in insertion
    order when [include] is absent or holds the wildcard and [options]
    is a mapping) without the keys that the exclude list names, in the
    order of the starting list; with neither list given, that is the
    list of the keys of [options]. *)
Theorem filtered_keys_from_starting_list self (start : list string) :
  ¬ Spec.is_member "*" (exclude self) →
  Spec.starts_from self start →
  ∃ keys,
    filtered_keys self = Ok keys
    ∧ keys = Spec.without_excluded (exclude self) start
    ∧ sublist keys start
    ∧ (∀ k, k ∈ keys ↔ k ∈ start ∧ ¬ Spec.is_member k (exclude self))
    ∧ (include self = None → exclude self = None →
       ∃ d, options self = Some d ∧ keys = dict_keys d).
Proof.
  intros Hexc Hstart. eexists. split; [by apply filtered_keys_no_wildcard|].
  split; [done|]. split; [apply without_excluded_sublist|].
  split; [apply elem_of_without_excluded|].
  intros Hinc Hnone. rewrite Hnone, without_excluded_None.
  destruct Hstart as [(inc & Hsome & _) | [_ (d & Hd & ->)]]; [congruence|].
  eauto.
Qed.

(** C6.  When the exclude list holds the wildcard, [filtered_keys]
    returns the empty list for every include list provided [options] is
    a mapping; the starting list is computed before the exclude list is
    looked at, so with [options] absent the empty list is returned for
    an include list without the wildcard only, and the call raises
    [AttributeError] when the include list is absent or holds the
    wildcard. *)
Theorem filtered_keys_wildcard_exclude self :
  Spec.is_member "*" (exclude self) →
  (∀ d, options self = Some d → filtered_keys self = Ok [])
  ∧ (∀ inc, include self = Some inc → "*" ∉ inc → filtered_keys self = Ok [])
  ∧ (options self = None →
     include self = None ∨ Spec.is_member "*" (include self) →
     filtered_keys self = Raise AttributeError).
Proof.
  intros Hexc. rewrite (filtered_keys_wildcard _ Hexc). split; [|split].
  - intros d ->. by destruct (include self).
  - intros inc -> Hstar%py_in_false. rewrite Hstar. by destruct (options self).
  - intros -> [-> | (inc & -> & Hstar)]; [done|].
    apply py_in_true in Hstar. by rewrite Hstar.
Qed.

(** C8 (amended).  Over a mapping of options the three queries return,
    the keys of the pairs of [filtered_items] are the list of
    [filtered_keys] without its dangling names (the whole list when it
    has none), and [filtered_values] is shorter than [filtered_keys] by
    the number of dangling names. *)
Theorem filtered_items_keys_without_dangling self d :
  options self = Some d →
  ∃ keys values items,
    filtered_keys self = Ok keys
    ∧ filtered_values self = Ok values
    ∧ filtered_items self = Ok items
    ∧ items.*1 = List.filter (λ k, dict_contains k d) keys
    ∧ length values
      + length (List.filter (λ k, negb (dict_contains k d)) keys)
      = length keys
    ∧ length values
      = length keys
        - length (List.filter (λ k, negb (dict_contains k d)) keys)
    ∧ ((∀ k, k ∈ keys → k ∈ dict_keys d) → items.*1 = keys).
Proof.
  intros Hd. destruct (filtered_queries_total _ _ Hd) as (keys & Hk & Hv & Hi).
  exists keys. do 2 eexists. repeat (split; [eassumption|]).
  split; [apply omap_items_keys|].
  assert (length (omap (λ k, id <$> dict_get k d) keys)
          + length (List.filter (λ k, negb (dict_contains k d)) keys)
          = length keys) as Hlen.
  { rewrite <- omap_items_values, length_fmap.
    rewrite <- (length_fmap fst), omap_items_keys.
    pose proof (filter_split_length (λ k, dict_contains k d) keys). lia. }
  split; [done|]. split; [lia|].
  intros Hall. rewrite omap_items_keys.
  clear Hk Hv Hi Hlen. induction keys as [|k keys IH]; simpl; [done|].
  assert (dict_contains k d = true) as ->.
  { apply dict_contains_keys, Hall. by left. }
  f_equal. apply IH. intros k' Hk'. apply Hall. by right.
Qed.
End facts.

(** C7 (amended).  A dangling name in the include list of an instance
    whose [options] is a mapping raises nothing in any of the three
    queries; it is in the list of [filtered_keys] whenever the include
    list does not hold the wildcard and the exclude list does not
    exclude it, and it is never among the pairs of [filtered_items],
    whose values are the list of [filtered_values].  With
    [options={'a': 1}] and [include=['z']] the keys are [['z']] and there
    are no values. *)
Theorem dangling_name_omitted :
  (∀ V (self : Options.t V) (name : string),
     Spec.dangling self name →
     ∃ keys values items,
       filtered_keys self = Ok keys
       ∧ filtered_values self = Ok values
       ∧ filtered_items self = Ok items
       ∧ (¬ Spec.is_member "*" (include self) →
          ¬ Spec.excluded name (exclude self) → name ∈ keys)
       ∧ (name ∉ items.*1)
       ∧ values = items.*2)
  ∧ filtered_keys Examples.dangling_z = Ok ["z"]
  ∧ filtered_values Examples.dangling_z = Ok []
  ∧ filtered_items Examples.dangling_z = Ok [].
Proof.
  split; [|done].
  intros V self name [Hinc (d & Hd & Hname)].
  destruct (filtered_queries_total _ _ Hd) as (keys & Hk & Hv & Hi).
  exists keys. do 2 eexists. repeat (split; [eassumption|]).
  split; [|split].
  - intros Hstar Hexc. destruct Hinc as (inc & Hsome & Hin).
    assert (¬ Spec.is_member "*" (exclude self)) as Hnostar.
    { intros Hm. apply Hexc. split; [|by right].
      destruct Hm as (exc & Hexc' & Hm).
      intros [E|E]; rewrite E in Hexc'; [done|].
      injection Hexc' as <-. by apply elem_of_nil in Hm. }
    assert (Spec.starts_from self inc) as Hstart.
    { left. exists inc. repeat split; [done|].
      intros Hm. apply Hstar. by exists inc. }
    rewrite (filtered_keys_no_wildcard _ _ Hnostar Hstart) in Hk.
    injection Hk as <-. apply elem_of_without_excluded. split; [done|].
    intros Hm. apply Hexc. split; [|by left].
    destruct Hm as (exc & Hexc' & Hm).
    intros [E|E]; rewrite E in Hexc'; [done|].
    injection Hexc' as <-. by apply elem_of_nil in Hm.
  - rewrite omap_items_keys, list_elem_of_In, filter_In.
    intros [_ Hc]. by apply dict_contains_keys in Hc.
  - by rewrite omap_items_values.
Qed.

(** *** The theorems at concrete instances *)

Lemma not_member_wildcard (l : list string) :
  py_in "*" l = false → ¬ Spec.is_member "*" (Some l).
Proof. intros H. rewrite member_Some. by apply py_in_false. Qed.

(** [options={'a': 1, 'b': 2, 'c': 3}], [include=['a', 'c']],
    [exclude=['c']]: the keys are [['a']]. *)
Lemma filtered_keys_abc : filtered_keys Examples.abc = Ok ["a"].
Proof.
  destruct (filtered_keys_from_starting_list Examples.abc ["a"; "c"])
    as (keys & -> & -> & _).
  - by apply not_member_wildcard.
  - left. exists ["a"; "c"]. repeat split. by apply py_in_false.
  - reflexivity.
Defined.

(** With [exclude=['*']] over [options={'a': 1}] the starting list is
    [['a']] and no key of it is in the exclude list, but the result is
    empty. *)
Lemma filtered_keys_wildcard_is_not_removal :
  Spec.starts_from Examples.all_excluded ["a"]
  ∧ Spec.without_excluded (exclude Examples.all_excluded) ["a"] = ["a"]
  ∧ filtered_keys Examples.all_excluded = Ok [].
Proof.
  split; [|done]. right. split; [by left|]. by exists [("a", 1%Z)].
Qed.

(** [Options(options=None, exclude=['*']).filtered_keys()] raises. *)
Lemma filtered_keys_wildcard_exclude_raises :
  filtered_keys Examples.all_excluded_no_options = Raise AttributeError.
Proof.
  apply (filtered_keys_wildcard_exclude Examples.all_excluded_no_options).
  - exists ["*"]. split; [done|]. by apply py_in_true.
  - reflexivity.
  - by left.
Defined.

(** The values of the first scenario. *)
Example filtered_values_abc : filtered_values Examples.abc = Ok [1%Z].
Proof. reflexivity. Qed.

Example filtered_items_abc : filtered_items Examples.abc = Ok [("a", 1%Z)].
Proof. reflexivity. Qed.

Lemma dangling_z_is_dangling : Spec.dangling Examples.dangling_z "z".
Proof.
  split.
  - exists ["z"]. split; [done|]. by apply py_in_true.
  - exists [("a", 1%Z)]. split; [done|]. by apply dict_get_None_keys.
Qed.

Lemma dangling_z_omitted :
  ∃ keys values items,
    filtered_keys Examples.dangling_z = Ok keys
    ∧ filtered_values Examples.dangling_z = Ok values
    ∧ filtered_items Examples.dangling_z = Ok items
    ∧ "z" ∈ keys ∧ ("z" ∉ items.*1) ∧ values = items.*2.
Proof.
  destruct (proj1 dangling_name_omitted Z Examples.dangling_z "z"
              dangling_z_is_dangling)
    as (keys & values & items & Hk & Hv & Hi & Hin & Hout & Hvals).
  exists keys, values, items. repeat (split; [done|]).
  split; [|done]. apply Hin.
  - intros Hm. apply member_Some in Hm. by apply py_in_false in Hm.
  - intros [Hne _]. apply Hne. by left.
Defined.

(** The dangling name [z] of [include=['z']] is excluded by
    [exclude=['z']]: it is not in the list of [filtered_keys]. *)
Lemma dangling_name_excluded :
  Spec.dangling Examples.dangling_z_excluded "z"
  ∧ filtered_keys Examples.dangling_z_excluded = Ok [].
Proof.
  split; [|done]. split.
  - exists ["z"]. split; [done|]. by apply py_in_true.
  - exists [("a", 1%Z)]. split; [done|]. by apply dict_get_None_keys.
Qed.

Lemma filtered_items_dangling_z :
  filtered_items Examples.dangling_z = Ok [].
Proof.
  destruct (filtered_items_keys_without_dangling Examples.dangling_z
              [("a", 1%Z)] eq_refl)
    as (keys & values & items & Hk & _ & -> & Hkeys & _).
  injection Hk as <-. by destruct items.
Defined.

(** The keys of [filtered_items] are not those of [filtered_keys] when a
    name dangles. *)
Lemma filtered_items_keys_differ :
  ∃ keys items,
    filtered_keys Examples.dangling_z = Ok keys
    ∧ filtered_items Examples.dangling_z = Ok items
    ∧ items.*1 ≠ keys.
Proof. by exists ["z"], []. Qed.

End OptionsFacts.

(** ** The glob variant *)

Module OptionsGlobFacts.
Import OptionsGlob.
Import Spec (plain_char, plain, plain_or_wildcard, plain_text).

(** *** Texts *)

Lemma concat_characters (bytes : list ascii) :
  concat (characters bytes) = bytes.
Proof.
  induction bytes as [|b bytes IH]; [done|]. simpl.
  destruct (characters bytes) as [|[|b' c] cs]; simpl in *;
    [by rewrite <- IH | by rewrite <- IH |].
  case_match; simpl; by rewrite <- IH.
Qed.

Lemma characters_inj (p q : list ascii) :
  characters p = characters q → p = q.
Proof.
  intros H. by rewrite <- (concat_characters p), H, concat_characters.
Qed.

Lemma list_ascii_inj (p q : string) :
  list_ascii_of_string p = list_ascii_of_string q → p = q.
Proof.
  intros H. rewrite <- (string_of_list_ascii_of_string p).
  rewrite <- (string_of_list_ascii_of_string q). by rewrite H.
Qed.

Lemma text_inj (p q : string) : text p = text q → p = q.
Proof. intros H. by apply list_ascii_inj, characters_inj. Qed.

Lemma plain_plain_text (p : string) : plain p = true → plain_text (text p).
Proof.
  unfold plain, text. intros Hp c Hc.
  assert (∀ b, c = [b] → plain_char b = true) as Hb.
  { intros b ->. rewrite forallb_forall in Hp. apply Hp.
    rewrite <- (concat_characters _). apply in_concat.
    exists [b]. split; [by apply list_elem_of_In | by left]. }
  repeat split; intros E; specialize (Hb _ E); done.
Qed.

(** *** Reading a pattern *)

Lemma parse_glob_plain (p rest : list (list ascii)) fuel :
  plain_text p →
  parse_glob (length p + fuel) (p ++ rest)
  = (GChar <$> p) ++ parse_glob fuel rest.
Proof.
  induction p as [|c p IH]; intros Hp; [done|]. simpl.
  destruct (Hp c) as (H1 & H2 & H3); [by left|].
  rewrite !decide_False by done. rewrite IH; [done|].
  intros c' Hc'. apply Hp. by right.
Qed.

Lemma parse_glob_plain_only (p : list (list ascii)) :
  plain_text p → parse_glob (length p) p = GChar <$> p.
Proof.
  intros Hp. pose proof (parse_glob_plain p [] 0 Hp) as H.
  by rewrite Nat.add_0_r, !app_nil_r in H.
Qed.

(** *** Matching *)

Lemma match_items_star items (s : list (list ascii)) :
  match_items (GStar :: items) s = true
  ↔ ∃ run rest, s = run ++ rest ∧ match_items items rest = true.
Proof.
  simpl. induction s as [|c s IH].
  - rewrite orb_false_r. split.
    + intros H. by exists [], [].
    + intros (run & rest & E & H). symmetry in E.
      apply app_eq_nil in E as [-> ->]. done.
  - rewrite orb_true_iff, IH. split.
    + intros [H | (run & rest & -> & H)].
      * by exists [], (c :: s).
      * by exists (c :: run), rest.
    + intros ([|c' run] & rest & E & H).
      * left. by rewrite E.
      * right. injection E as -> ->. eauto.
Qed.

Lemma match_items_chars (p s : list (list ascii)) :
  match_items (GChar <$> p) s = bool_decide (p = s).
Proof.
  revert s. induction p as [|c p IH]; intros [|c' s]; simpl; try done.
  rewrite IH. repeat case_bool_decide; by simplify_eq.
Qed.

Lemma match_items_prefix (p : list (list ascii)) items s :
  match_items ((GChar <$> p) ++ items) s = true
  ↔ ∃ rest, s = p ++ rest ∧ match_items items rest = true.
Proof.
  revert s. induction p as [|c p IH]; intros s.
  - simpl. split; [eauto | by intros (rest & -> & H)].
  - rewrite fmap_cons, <- app_comm_cons.
    destruct s as [|c' s]; [split; [done | by intros (? & ? & _)]|].
    change (match_items (GChar c :: (GChar <$> p) ++ items) (c' :: s))
      with (bool_decide (c = c') && match_items ((GChar <$> p) ++ items) s).
    rewrite andb_true_iff, bool_decide_eq_true, IH. split.
    + intros [-> (rest & -> & H)]. eauto.
    + intros (rest & [= -> ->] & H). eauto.
Qed.

Lemma in_range_true c lo hi :
  in_range c (lo, hi) = true
  ↔ (code_point lo ≤ code_point c ≤ code_point hi)%N.
Proof.
  unfold in_range. simpl. rewrite andb_true_iff, !N.leb_le. done.
Qed.

Lemma in_ranges_true c (ranges : list (list ascii * list ascii)) :
  existsb (in_range c) ranges = true
  ↔ ∃ lo hi, (lo, hi) ∈ ranges
      ∧ (code_point lo ≤ code_point c ≤ code_point hi)%N.
Proof.
  rewrite existsb_exists. split.
  - intros ([lo hi] & Hin & H). exists lo, hi.
    split; [by apply list_elem_of_In | by apply in_range_true].
  - intros (lo & hi & Hin & H). exists (lo, hi).
    split; [by apply list_elem_of_In | by apply in_range_true].
Qed.

Lemma match_items_class negated ranges items (s : list (list ascii)) :
  match_items (GClass negated ranges :: items) s = true
  ↔ ∃ c rest, s = c :: rest
      ∧ (negated = false ↔
           ∃ lo hi, (lo, hi) ∈ ranges
             ∧ (code_point lo ≤ code_point c ≤ code_point hi)%N)
      ∧ match_items items rest = true.
Proof.
  destruct s as [|c s]; simpl; [split; [done | by intros (? & ? & ? & _)]|].
  rewrite andb_true_iff. split.
  - intros [Hx H]. exists c, s. split; [done|]. split; [|done].
    rewrite <- in_ranges_true.
    destruct negated, (existsb (in_range c) ranges); simpl in *;
      intuition congruence.
  - intros (c' & rest & [= -> ->] & Hx & H). split; [|done].
    rewrite <- in_ranges_true in Hx.
    destruct negated, (existsb (in_range c') ranges); simpl in *;
      intuition congruence.
Qed.

(** The matcher computes the relation that the spec describes. *)
Lemma match_items_spec items : ∀ s,
  match_items items s = true ↔ Spec.items_match items s.
Proof.
  induction items as [|item items IH]; intros s.
  - split.
    + destruct s; [constructor | done].
    + by inversion 1.
  - split.
    + destruct item as [| |c|negated ranges].
      * intros (run & rest & -> & H)%match_items_star.
        constructor; [constructor | by apply IH].
      * destruct s as [|c s]; [done|]. simpl. intros H.
        apply (Spec.cons_match _ _ [c]); [constructor | by apply IH].
      * destruct s as [|c' s]; [done|]. simpl.
        intros [->%bool_decide_eq_true H]%andb_true_iff.
        apply (Spec.cons_match _ _ [c']); [constructor | by apply IH].
      * intros (c & rest & -> & Hx & H)%match_items_class.
        apply (Spec.cons_match _ _ [c]); [by constructor | by apply IH].
    + inversion 1 as [|item' items' run rest Hitem Hrest]; subst.
      apply IH in Hrest. inversion Hitem; subst.
      * apply match_items_star. eauto.
      * done.
      * simpl. by rewrite bool_decide_true.
      * apply match_items_class. eauto.
Qed.

(** *** The three kinds of special item, between plain texts *)

Lemma parse_glob_plain_more (p : list (list ascii)) fuel :
  plain_text p → length p ≤ fuel → parse_glob fuel p = GChar <$> p.
Proof.
  intros Hp Hlen.
  pose proof (parse_glob_plain p [] (fuel - length p) Hp) as H.
  rewrite app_nil_r in H.
  replace (length p + (fuel - length p)) with fuel in H by lia.
  rewrite H. destruct (fuel - length p); apply app_nil_r.
Qed.

Lemma fnmatch_text_star (p q value : list (list ascii)) :
  plain_text p → plain_text q →
  fnmatch_text value (p ++ ["*"%char] :: q) = true
  ↔ ∃ run, value = p ++ run ++ q.
Proof.
  intros Hp Hq. unfold fnmatch_text. rewrite length_app.
  rewrite parse_glob_plain by done. simpl.
  rewrite (parse_glob_plain_more q) by (done || lia).
  rewrite match_items_prefix. split.
  - intros (rest & -> & (run & rest' & -> & H)%match_items_star).
    rewrite match_items_chars in H. apply bool_decide_eq_true in H as <-.
    eauto.
  - intros (run & ->). eexists. split; [done|].
    apply match_items_star. exists run, q. split; [done|].
    rewrite match_items_chars. by apply bool_decide_eq_true.
Qed.

Lemma fnmatch_text_any (p q value : list (list ascii)) :
  plain_text p → plain_text q →
  fnmatch_text value (p ++ ["?"%char] :: q) = true
  ↔ ∃ c, value = p ++ c :: q.
Proof.
  intros Hp Hq. unfold fnmatch_text. rewrite length_app.
  rewrite parse_glob_plain by done. simpl.
  rewrite (parse_glob_plain_more q) by (done || lia).
  rewrite match_items_prefix. split.
  - intros ([|c rest] & -> & H); [done|]. simpl in H.
    rewrite match_items_chars in H. apply bool_decide_eq_true in H as <-.
    eauto.
  - intros (c & ->). eexists. split; [done|]. simpl.
    rewrite match_items_chars. by apply bool_decide_eq_true.
Qed.

Lemma parse_glob_class fuel (p : list (list ascii)) negated body rest :
  bracket p = Some (negated, body, rest) →
  parse_glob (S fuel) (["["%char] :: p)
  = GClass negated (class_ranges body) :: parse_glob fuel rest.
Proof. intros H. simpl. by rewrite H. Qed.

Lemma bracket_range (q : list (list ascii)) lo hi :
  lo ≠ ["!"%char] → lo ≠ ["]"%char] → hi ≠ ["]"%char] →
  bracket (lo :: ["-"%char] :: hi :: ["]"%char] :: q)
  = Some (false, [lo; ["-"%char]; hi], q).
Proof.
  intros Hlo1 Hlo2 Hhi. unfold bracket.
  rewrite !decide_False by done. simpl. by rewrite ?decide_False by done.
Qed.

Lemma bracket_not_range (q : list (list ascii)) lo hi :
  lo ≠ ["]"%char] → hi ≠ ["]"%char] →
  bracket (["!"%char] :: lo :: ["-"%char] :: hi :: ["]"%char] :: q)
  = Some (true, [lo; ["-"%char]; hi], q).
Proof.
  intros Hlo Hhi. unfold bracket. simpl.
  rewrite !decide_False by done. simpl. by rewrite ?decide_False by done.
Qed.

Lemma fnmatch_text_range (p q value : list (list ascii)) lo hi :
  plain_text p → plain_text q →
  lo ≠ ["!"%char] → lo ≠ ["]"%char] → hi ≠ ["]"%char] →
  fnmatch_text value
    (p ++ ["["%char] :: lo :: ["-"%char] :: hi :: ["]"%char] :: q) = true
  ↔ ∃ c, value = p ++ c :: q
      ∧ (code_point lo ≤ code_point c ≤ code_point hi)%N.
Proof.
  intros Hp Hq Hlo1 Hlo2 Hhi. unfold fnmatch_text. rewrite length_app.
  rewrite parse_glob_plain by done. cbn [length].
  rewrite (parse_glob_class _ _ _ _ _ (bracket_range q lo hi Hlo1 Hlo2 Hhi)).
  rewrite (parse_glob_plain_more q) by (done || lia).
  simpl class_ranges.
  rewrite match_items_prefix. split.
  - intros (rest & -> & (c & rest' & -> & Hx & H)%match_items_class).
    rewrite match_items_chars in H. apply bool_decide_eq_true in H as <-.
    exists c. split; [done|].
    destruct (proj1 Hx eq_refl) as (lo' & hi' & Hin & H).
    apply list_elem_of_singleton in Hin. by injection Hin as -> ->.
  - intros (c & -> & H). eexists. split; [done|].
    apply match_items_class. exists c, q. split; [done|].
    rewrite match_items_chars. split; [|by apply bool_decide_eq_true].
    split; [|done]. intros _. exists lo, hi. split; [by left | done].
Qed.

Lemma fnmatch_text_not_range (p q value : list (list ascii)) lo hi :
  plain_text p → plain_text q →
  lo ≠ ["]"%char] → hi ≠ ["]"%char] →
  fnmatch_text value
    (p ++ ["["%char] :: ["!"%char] :: lo :: ["-"%char] :: hi
       :: ["]"%char] :: q) = true
  ↔ ∃ c, value = p ++ c :: q
      ∧ ¬ (code_point lo ≤ code_point c ≤ code_point hi)%N.
Proof.
  intros Hp Hq Hlo Hhi. unfold fnmatch_text. rewrite length_app.
  rewrite parse_glob_plain by done. cbn [length].
  rewrite (parse_glob_class _ _ _ _ _ (bracket_not_range q lo hi Hlo Hhi)).
  rewrite (parse_glob_plain_more q) by (done || lia).
  simpl class_ranges.
  rewrite match_items_prefix. split.
  - intros (rest & -> & (c & rest' & -> & Hx & H)%match_items_class).
    rewrite match_items_chars in H. apply bool_decide_eq_true in H as <-.
    exists c. split; [done|]. intros H.
    assert (true = false) as Habs; [|done].
    apply Hx. exists lo, hi. split; [by left | done].
  - intros (c & -> & H). eexists. split; [done|].
    apply match_items_class. exists c, q. split; [done|].
    rewrite match_items_chars. split; [|by apply bool_decide_eq_true].
    split; [done|]. intros (lo' & hi' & Hin & H').
    apply list_elem_of_singleton in Hin. injection Hin as -> ->. done.
Qed.

(** *** Patterns as strings *)

(** A plain pattern matches itself only. *)
Lemma fnmatch_plain (value p : string) :
  plain p = true → fnmatch value p = bool_decide (value = p).
Proof.
  intros Hp%plain_plain_text. unfold fnmatch, fnmatch_text.
  rewrite parse_glob_plain_only by done.
  rewrite match_items_chars. apply bool_decide_ext. split.
  - intros H. symmetry. by apply text_inj.
  - by intros ->.
Qed.

(** The wildcard alone matches everything. *)
Lemma fnmatch_wildcard (value : string) : fnmatch value "*" = true.
Proof.
  unfold fnmatch. apply (fnmatch_text_star [] []); [by intros c Hc%elem_of_nil..|].
  exists (text value). by rewrite app_nil_r.
Qed.

(** On plain entries and the wildcard, matching some pattern of a list is
    the membership test of the exact-match filter. *)
Lemma matches_any_plain (value : string) (l : list string) :
  forallb plain_or_wildcard l = true →
  matches_any value l = py_in value l || py_in "*" l.
Proof.
  unfold matches_any, py_in.
  induction l as [|p l IH]; simpl; [done|].
  intros [Hp Hl]%andb_true_iff. rewrite (IH Hl). clear IH.
  apply orb_true_iff in Hp as [Hp | Hp].
  - rewrite (fnmatch_plain _ _ Hp).
    assert (p ≠ "*") as Hstar by (by intros ->).
    assert (bool_decide ("*" ∈ p :: l) = bool_decide ("*" ∈ l)) as ->.
    { apply bool_decide_ext. rewrite elem_of_cons. intuition congruence. }
    destruct (decide (value = p)) as [->|Hne].
    + rewrite bool_decide_true by done.
      rewrite (bool_decide_true (p ∈ p :: l)) by (by left). done.
    + rewrite bool_decide_false by done. simpl. f_equal.
      apply bool_decide_ext. rewrite elem_of_cons. intuition congruence.
  - apply bool_decide_eq_true in Hp. subst p. rewrite fnmatch_wildcard.
    rewrite (bool_decide_true ("*" ∈ "*" :: l)) by (by left).
    by rewrite orb_true_r.
Qed.

Lemma matches_any_true (value : string) (l : list string) :
  matches_any value l = true ↔ ∃ p, p ∈ l ∧ fnmatch value p = true.
Proof.
  unfold matches_any. rewrite existsb_exists.
  by setoid_rewrite list_elem_of_In.
Qed.

Lemma matches_Some value (l : list string) :
  Spec.matches value (Some l) ↔ matches_any value l = true.
Proof.
  rewrite matches_any_true. unfold Spec.matches. split.
  - intros (ps & p & [= <-] & ? & ?). eauto.
  - intros (p & ? & ?). eauto.
Qed.

Lemma matches_None value : ¬ Spec.matches value None.
Proof. by intros (ps & p & ? & _). Qed.

Lemma glob_included (include : option (list string)) value :
  match include with
  | None | Some [] => true
  | Some inc => matches_any value inc
  end = true
  ↔ Spec.empty_or_absent include ∨ Spec.matches value include.
Proof.
  unfold Spec.empty_or_absent. destruct include as [[|p inc]|].
  - split; auto.
  - rewrite matches_Some. split; [auto | by intros [[|]|]].
  - split; auto.
Qed.

Lemma glob_excluded (exclude : option (list string)) value :
  match exclude with
  | None | Some [] => false
  | Some exc => matches_any value exc
  end = true
  ↔ ¬ Spec.empty_or_absent exclude ∧ Spec.matches value exclude.
Proof.
  unfold Spec.empty_or_absent. destruct exclude as [[|p exc]|].
  - split; [done | intros [H _]; destruct H; auto].
  - rewrite matches_Some. split; [|tauto].
    intros H. split; [by intros [|] | done].
  - split; [done | intros [H _]; destruct H; auto].
Qed.

(** The membership tests of the exact-match filter, on the names that a
    list of patterns stands for, are the matching of some pattern. *)
Lemma names_matched_member (value : string) (l : list string) :
  let names :=
    (λ p, if fnmatch value p then value else "**" +:+ value) <$> l in
  py_in value names || py_in "*" names = matches_any value l.
Proof.
  assert ("**" +:+ value = String "*" (String "*" value)) as Happ by done.
  assert ("**" +:+ value ≠ value) as Hne.
  { rewrite Happ. intros E. apply (f_equal String.length) in E.
    simpl in E. lia. }
  assert ("**" +:+ value ≠ "*") as Hstar by (by rewrite Happ).
  clear Happ.
  simpl. unfold matches_any, py_in.
  induction l as [|p l IH]; [done|]. rewrite fmap_cons. simpl.
  rewrite <- IH. clear IH.
  set (names := (λ p, if fnmatch value p then value else "**" +:+ value)
                  <$> l).
  destruct (fnmatch value p).
  - rewrite (bool_decide_true (value ∈ value :: names)) by (by left). done.
  - simpl. f_equal; apply bool_decide_ext; rewrite elem_of_cons;
      intuition congruence.
Qed.

Lemma glob_filter_names_matched (self : t) (value : string) :
  glob_filter self value
  = OptionsBase.filter
      (OptionsBase.Build (Spec.names_matched value (include self))
         (Spec.names_matched value (exclude self))) value.
Proof.
  unfold glob_filter, OptionsBase.filter, Spec.names_matched. simpl.
  f_equal; [|f_equal].
  - destruct (include self) as [[|p inc]|]; [done| |done].
    symmetry. apply (names_matched_member value (p :: inc)).
  - destruct (exclude self) as [[|p exc]|]; [done| |done].
    symmetry. apply (names_matched_member value (p :: exc)).
Qed.

(** C9.  The glob variant has the precedence rule of the exact-match
    [OptionsBase.filter]: it answers as that filter does on the names
    that the two lists of patterns stand for at the value, every pattern
    that matches replaced by the value itself; so it answers [true]
    exactly when the value is included (the include list is absent or
    empty, or one of its patterns matches) and not excluded, and a match
    in the exclude list always wins.  Matching is shell-style: a text
    matches when it is made of runs that the items of the pattern match
    one after the other; between plain texts [*] stands for any run of
    characters, [?] for exactly one character, whatever its encoding,
    [[lo-hi]] for one character from [lo] to [hi] and [[!lo-hi]] for one
    character outside; a plain pattern matches itself only and the
    wildcard alone matches every value, so that on lists of plain names
    and wildcards the glob variant and [OptionsBase.filter] agree.  With
    [include=['abc.*']] the value [abc.def] is included and [xyz.def] is
    not; the other examples are of character classes and of characters
    that take one to four bytes. *)
Theorem glob_filter_same_precedence :
  (∀ self value,
     glob_filter self value
     = OptionsBase.filter
         (OptionsBase.Build (Spec.names_matched value (include self))
            (Spec.names_matched value (exclude self))) value)
  ∧ (∀ self value,
       glob_filter self value = true ↔
         (Spec.empty_or_absent (include self)
          ∨ Spec.matches value (include self))
         ∧ ¬ (¬ Spec.empty_or_absent (exclude self)
              ∧ Spec.matches value (exclude self)))
  ∧ (∀ self value,
       Spec.matches value (exclude self) → glob_filter self value = false)
  ∧ (∀ items s, match_items items s = true ↔ Spec.items_match items s)
  ∧ (∀ p q value,
       plain_text p → plain_text q →
       (fnmatch_text value (p ++ ["*"%char] :: q) = true
        ↔ ∃ run, value = p ++ run ++ q)
       ∧ (fnmatch_text value (p ++ ["?"%char] :: q) = true
          ↔ ∃ c, value = p ++ c :: q)
       ∧ (∀ lo hi,
            lo ≠ ["]"%char] → hi ≠ ["]"%char] →
            (lo ≠ ["!"%char] →
             fnmatch_text value
               (p ++ ["["%char] :: lo :: ["-"%char] :: hi :: ["]"%char] :: q)
             = true
             ↔ ∃ c, value = p ++ c :: q
                 ∧ (code_point lo ≤ code_point c ≤ code_point hi)%N)
            ∧ (fnmatch_text value
                 (p ++ ["["%char] :: ["!"%char] :: lo :: ["-"%char] :: hi
                    :: ["]"%char] :: q) = true
               ↔ ∃ c, value = p ++ c :: q
                   ∧ ¬ (code_point lo ≤ code_point c
                        ≤ code_point hi)%N)))
  ∧ (∀ value p, plain p = true → fnmatch value p = bool_decide (value = p))
  ∧ (∀ value, fnmatch value "*" = true)
  ∧ (∀ inc exc value,
       forallb plain_or_wildcard (default [] inc) = true →
       forallb plain_or_wildcard (default [] exc) = true →
       glob_filter (Build inc exc) value
       = OptionsBase.filter (OptionsBase.Build inc exc) value)
  ∧ glob_filter (Build (Some ["abc.*"]) None) "abc.def" = true
  ∧ glob_filter (Build (Some ["abc.*"]) None) "xyz.def" = false
  ∧ fnmatch "é" "?" = true
  ∧ fnmatch "ab" "?" = false
  ∧ fnmatch "b" "[abc]" = true
  ∧ fnmatch "d" "[abc]" = false
  ∧ fnmatch "é" "[à-ö]" = true
  ∧ fnmatch "ÿ" "[à-ö]" = false
  ∧ fnmatch "b" "[!a]" = true
  ∧ fnmatch "a" "[!a]" = false
  ∧ fnmatch "]" "[]a]" = true
  ∧ fnmatch "[a" "[a" = true
  ∧ code_point <$> text "aé€😀" = [97; 233; 8364; 128512]%N.
Proof.
  split; [apply glob_filter_names_matched|].
  split.
  { intros self value. unfold glob_filter.
    rewrite andb_true_iff, negb_true_iff, glob_included, <- glob_excluded.
    by rewrite not_true_iff_false. }
  split.
  { intros self value Hm. unfold glob_filter.
    apply andb_false_iff. right. apply negb_false_iff, glob_excluded.
    split; [|done]. intros [E|E]; rewrite E in Hm.
    + by apply matches_None in Hm.
    + apply matches_Some in Hm. done. }
  split; [intros items s; apply match_items_spec|].
  split.
  { intros p q value Hp Hq.
    split; [by apply fnmatch_text_star|].
    split; [by apply fnmatch_text_any|].
    intros lo hi Hlo Hhi. split.
    - intros Hneg. by apply fnmatch_text_range.
    - by apply fnmatch_text_not_range. }
  split; [apply fnmatch_plain|].
  split; [apply fnmatch_wildcard|].
  split; [|by vm_compute].
  intros inc exc value Hinc Hexc. unfold glob_filter, OptionsBase.filter.
  simpl. f_equal; [|f_equal].
  - destruct inc as [[|p inc]|]; [done | | done].
    by apply matches_any_plain.
  - destruct exc as [[|p exc]|]; [done | | done].
    by apply matches_any_plain.
Qed.

(** The agreement with the exact-match filter, at
    [include=['results', '*']] and [exclude=['results']]. *)
Lemma glob_filter_agrees_on_plain :
  glob_filter (Build (Some ["results"; "*"]) (Some ["results"])) "results"
  = OptionsBase.filter
      (OptionsBase.Build (Some ["results"; "*"]) (Some ["results"])) "results".
Proof.
  destruct glob_filter_same_precedence
    as (_ & _ & _ & _ & _ & _ & _ & Hplain & _).
  apply Hplain; reflexivity.
Defined.
End OptionsGlobFacts.

(** ** The pre-validator of [WidgetScatterPlot] *)

Module WidgetScatterPlotFacts.
Import WidgetScatterPlot.

Lemma axis_compatibility_lookup name (values : gmap string pyval) k :
  axis_compatibility name values !! k
  = match values !! k with
    | Some (PStr s) =>
        if decide (k = name) then Some (quantity (PStr s)) else Some (PStr s)
    | other => other
    end.
Proof.
  unfold axis_compatibility.
  destruct (decide (k = name)) as [->|Hne].
  - destruct (values !! name) as [[]|] eqn:E; rewrite ?E; try done.
    by rewrite lookup_insert_eq.
  - destruct (values !! name) as [[]|] eqn:E;
      rewrite ?lookup_insert_ne by done; by destruct (values !! k) as [[]|].
Qed.

(** The mapping after the rewriting of the deprecated [color]. *)
Lemma color_compatibility (values : gmap string pyval) :
  match values !! "color" with
  | None | Some PNone => Ok values
  | Some color =>
      del_item "color"
        (<["markers" := PDict {[ "color" := quantity color ]}]> values)
  end
  = Ok match values !! "color" with
       | None | Some PNone => values
       | Some color =>
           delete "color"
             (<["markers" := PDict {[ "color" := quantity color ]}]> values)
       end.
Proof.
  unfold del_item.
  destruct (values !! "color") as [[]|] eqn:E; try done;
    by rewrite lookup_insert_ne, E.
Qed.

(** C10.  [backwards_compatibility] raises nothing.  A [color] that is
    present and not [None] is removed and [markers] becomes
    [{'color': {'quantity': color}}], whatever [markers] was; an [x] or
    a [y] that is a string [s] becomes [{'quantity': s}]; every other
    key keeps the value it had, or stays absent. *)
Theorem backwards_compatibility_rewrites (values : gmap string pyval) :
  ∃ r,
    backwards_compatibility values = Ok r
    ∧ (∀ color, values !! "color" = Some color → color ≠ PNone →
         r !! "color" = None
         ∧ r !! "markers"
           = Some (PDict {[ "color" := PDict {[ "quantity" := color ]} ]}))
    ∧ (∀ s, values !! "x" = Some (PStr s) →
         r !! "x" = Some (PDict {[ "quantity" := PStr s ]}))
    ∧ (∀ s, values !! "y" = Some (PStr s) →
         r !! "y" = Some (PDict {[ "quantity" := PStr s ]}))
    ∧ (∀ k,
         values !! "color" = None ∨ values !! "color" = Some PNone
         ∨ (k ≠ "color" ∧ k ≠ "markers") →
         ¬ ((k = "x" ∨ k = "y") ∧ ∃ s, values !! k = Some (PStr s)) →
         r !! k = values !! k).
Proof.
  unfold backwards_compatibility. rewrite color_compatibility. simpl.
  eexists. split; [done|].
  set (values1 :=
    match values !! "color" with
    | None | Some PNone => values
    | Some color =>
        delete "color"
          (<["markers" := PDict {[ "color" := quantity color ]}]> values)
    end).
  assert (∀ k, k ≠ "color" → k ≠ "markers" → values1 !! k = values !! k)
    as Hother.
  { intros k Hc Hm. unfold values1.
    destruct (values !! "color") as [[]|]; try done;
      by rewrite lookup_delete_ne, lookup_insert_ne. }
  split; [|split; [|split]].
  - intros color Hcolor Hnone. rewrite !axis_compatibility_lookup.
    unfold values1. rewrite Hcolor.
    destruct color; try done;
      by rewrite lookup_delete_eq, lookup_delete_ne, lookup_insert_eq.
  - intros s Hx. rewrite !axis_compatibility_lookup.
    by rewrite Hother, Hx.
  - intros s Hy. rewrite !axis_compatibility_lookup.
    by rewrite Hother, Hy.
  - intros k Hcolor Hxy. rewrite !axis_compatibility_lookup.
    assert (values1 !! k = values !! k) as ->.
    { destruct Hcolor as [E | [E | [Hc Hm]]]; [| | by apply Hother];
        unfold values1; by rewrite E. }
    destruct (values !! k) as [[]|] eqn:E; try done.
    repeat case_decide; try done; subst; exfalso; apply Hxy; eauto.
Qed.
End WidgetScatterPlotFacts.

(** ** [customize] *)

Module SettingsFacts.
Import Settings.

(** *** Objects and their images *)

Lemma shape_of_map_object f o : shape_of (map_object f o) = shape_of o.
Proof.
  assert (∀ d : dict value, dict_keys (prod_map id f <$> d) = dict_keys d)
    as Hkeys.
  { intros d. unfold dict_keys. rewrite <- list_fmap_compose.
    apply list_fmap_ext. by intros i [k v] _. }
  destruct o as [fields attrs|items|elems]; simpl; by rewrite ?Hkeys.
Qed.

Lemma children_map_object f o : children (map_object f o) = f <$> children o.
Proof.
  assert (∀ d : dict value, (prod_map id f <$> d).*2 = f <$> d.*2) as Hvals.
  { intros d. rewrite <- !list_fmap_compose.
    apply list_fmap_ext. by intros i [k v] _. }
  destruct o as [fields attrs|items|elems]; simpl; by rewrite ?Hvals.
Qed.

Lemma heap_closed_lookup (h : heap) l o v :
  heap_closed h = true → h !! l = Some o → v ∈ children o →
  value_closed (length h) v = true.
Proof.
  unfold heap_closed. rewrite forallb_forall. intros Hh Hl Hv.
  specialize (Hh o). rewrite <- list_elem_of_In in Hh.
  specialize (Hh ltac:(by eapply list_elem_of_lookup_2)).
  rewrite forallb_forall in Hh. apply Hh. by apply list_elem_of_In.
Qed.

(** *** What a closed heap holds does not depend on what is added *)

Lemma unfold_extend (h ext : heap) depth v :
  heap_closed h = true → value_closed (length h) v = true →
  unfold depth (h ++ ext) v = unfold depth h v.
Proof.
  intros Hh. revert v. induction depth as [|depth IH]; intros v Hv.
  - by destruct v.
  - destruct v as [| | | |l]; simpl; try done.
    simpl in Hv. apply bool_decide_eq_true in Hv.
    rewrite lookup_app_l by done.
    destruct (h !! l) as [o|] eqn:Hl; [|done]. f_equal.
    apply list_fmap_ext. intros i c Hc. apply IH.
    eapply heap_closed_lookup; [done | done |].
    by eapply list_elem_of_lookup_2.
Qed.

(** The image of a closed heap unfolds as the heap does. *)
Lemma unfold_image (h : heap) depth v :
  heap_closed h = true → value_closed (length h) v = true →
  unfold depth (deepcopy h v).1 (deepcopy h v).2 = unfold depth h v.
Proof.
  intros Hh. unfold deepcopy. simpl.
  revert v. induction depth as [|depth IH]; intros v Hv.
  - by destruct v.
  - destruct v as [| | | |l]; simpl; try done.
    simpl in Hv. apply bool_decide_eq_true in Hv.
    rewrite lookup_app_r by lia.
    replace (l + length h - length h) with l by lia.
    rewrite list_lookup_fmap.
    destruct (h !! l) as [o|] eqn:Hl; [|done]. simpl.
    rewrite shape_of_map_object, children_map_object. f_equal.
    rewrite <- list_fmap_compose.
    apply list_fmap_ext. intros i c Hc. apply IH.
    eapply heap_closed_lookup; [done | done |].
    by eapply list_elem_of_lookup_2.
Qed.

(** Every reference of the image is to the image. *)
Lemma reachable_image (h ext : heap) v l :
  (∀ l' o c, length h ≤ l' → (h ++ ext) !! l' = Some o → c ∈ children o →
     ∀ l'', c = VRef l'' → length h ≤ l'') →
  reachable (h ++ ext) v l →
  (∀ l0, v = VRef l0 → length h ≤ l0) → length h ≤ l.
Proof.
  intros Hext. induction 1 as [l|l o c l' Hl Hc Hreach IH]; intros Hv.
  - by apply Hv.
  - apply IH. intros l0 ->. eapply Hext; [|done|done|done]. by apply Hv.
Qed.

Lemma image_refs (h : heap) l o c l' :
  length h ≤ l →
  (deepcopy h (VRef 0)).1 !! l = Some o → c ∈ children o → c = VRef l' →
  length h ≤ l'.
Proof.
  unfold deepcopy. simpl. intros Hl. rewrite lookup_app_r by done.
  rewrite list_lookup_fmap. destruct (h !! (l - length h)); [|done].
  intros [= <-]. rewrite children_map_object.
  intros (c0 & -> & _)%list_elem_of_fmap. destruct c0; simpl; try done.
  intros [= <-]. lia.
Qed.

(** *** Assignments touch one object *)

Lemma frame_refl rv h : frame rv h h.
Proof. by repeat split. Qed.

Lemma frame_trans rv h1 h2 h3 : frame rv h1 h2 → frame rv h2 h3 → frame rv h1 h3.
Proof.
  intros (Hlen1 & Hl1 & Hm1) (Hlen2 & Hl2 & Hm2). repeat split.
  - congruence.
  - intros l Hl. by rewrite Hl2, Hl1.
  - auto.
Qed.

Lemma setattr_Ok h l name v h' :
  setattr h l name v = Ok h' →
  ∃ fields attrs,
    h !! l = Some (OModel fields attrs)
    ∧ (name ∈ DUNDER_ATTRIBUTES ∨ name ∈ fields)
    ∧ h' = <[l := OModel fields (dict_set name v attrs)]> h.
Proof.
  unfold setattr. destruct (h !! l) as [[fields attrs| |]|]; try done.
  destruct (py_in name DUNDER_ATTRIBUTES) eqn:Hdunder.
  - intros [= <-]. apply py_in_true in Hdunder. eauto 6.
  - destruct (py_in name fields) eqn:Hin; [|done].
    intros [= <-]. apply py_in_true in Hin. eauto 6.
Qed.

Lemma setattr_Raise h l fields name v e :
  model_at h l fields → setattr h l name v = Raise e →
  (name ∉ DUNDER_ATTRIBUTES) ∧ name ∉ fields.
Proof.
  intros [attrs Hl]. unfold setattr. rewrite Hl.
  destruct (py_in name DUNDER_ATTRIBUTES) eqn:Hdunder; [done|].
  destruct (py_in name fields) eqn:Hin; [done|].
  by apply py_in_false in Hdunder, Hin.
Qed.

(** The names that an instance of a class with the fields [fields]
    accepts are the fields and the names of [DUNDER_ATTRIBUTES]. *)
Lemma setattr_accepts h l fields name v :
  model_at h l fields → name ∈ DUNDER_ATTRIBUTES ∨ name ∈ fields →
  ∃ h', setattr h l name v = Ok h'.
Proof.
  intros Hl Hname. destruct (setattr h l name v) as [h'|e] eqn:Hset; [eauto|].
  destruct (setattr_Raise _ _ _ _ _ _ Hl Hset). tauto.
Qed.

(** The names of [DUNDER_ATTRIBUTES] are stored on a node that has no
    field at all; no other name is. *)
Example setattr_dunder_names :
  (λ name, match setattr [OModel [] []] 0 name VNone with
           | Ok _ => true
           | Raise _ => false
           end)
    <$> [ "__annotations__"; "__classcell__"; "__doc__"; "__module__";
          "__orig_bases__"; "__orig_class__"; "__qualname__";
          "__firstlineno__"; "__static_attributes__"; "__classdictcell__";
          "__class__"; "__dict__"; "_private"; "nonexistent_field" ]
  = [ true; true; true; true; true; true; true; true; true; true;
      false; false; false; false ].
Proof. reflexivity. Qed.

Lemma setattr_frame h l name v h' : setattr h l name v = Ok h' → frame l h h'.
Proof.
  intros (fields & attrs & Hl & _ & ->)%setattr_Ok. repeat split.
  - apply length_insert.
  - intros l' Hne. by apply list_lookup_insert_ne.
  - intros fields' [attrs' Hl']. rewrite Hl in Hl'. injection Hl' as <- <-.
    eexists. apply list_lookup_insert_eq. by eapply lookup_lt_Some.
Qed.

Lemma getattr_setattr_eq h l name v h' :
  setattr h l name v = Ok h' → getattr h' l name = Ok v.
Proof.
  intros (fields & attrs & Hl & _ & ->)%setattr_Ok. unfold getattr.
  rewrite list_lookup_insert_eq by (by eapply lookup_lt_Some).
  by rewrite dict_get_set_eq.
Qed.

Lemma getattr_setattr_ne h l name name' v h' :
  setattr h l name v = Ok h' → name ≠ name' →
  getattr h' l name' = getattr h l name'.
Proof.
  intros (fields & attrs & Hl & _ & ->)%setattr_Ok Hne. unfold getattr.
  rewrite list_lookup_insert_eq by (by eapply lookup_lt_Some).
  by rewrite Hl, dict_get_set_ne.
Qed.

Lemma getattr_frame rv h h' l name :
  frame rv h h' → l ≠ rv → getattr h' l name = getattr h l name.
Proof. intros (_ & Hl & _) Hne. unfold getattr. by rewrite Hl. Qed.

(** What lies below a location that is assigned to is left as it was. *)
Lemma frame_take rv (h0 h h' : heap) :
  frame rv h h' → length h0 ≤ rv → take (length h0) h = h0 →
  take (length h0) h' = h0.
Proof.
  intros (Hlen & Hl & _) Hrv Htake. rewrite <- Htake at 2.
  apply list_eq. intros i. rewrite !lookup_take.
  case_decide; [|done]. apply Hl. lia.
Qed.

(** The first element of a list that has a given property. *)
Lemma first_such {A} (P : A → Prop) `{!∀ x, Decision (P x)} (l : list A) :
  (∃ x, x ∈ l ∧ P x) →
  ∃ pre x post, l = pre ++ x :: post ∧ (∀ y, y ∈ pre → ¬ P y) ∧ P x.
Proof.
  induction l as [|a l IH]; intros (x & Hin & HP).
  { by apply elem_of_nil in Hin. }
  destruct (decide (P a)) as [Ha|Ha].
  - exists [], a, l. split; [done|]. split; [|done].
    intros y Hy. by apply elem_of_nil in Hy.
  - destruct IH as (pre & x' & post & -> & Hpre & Hx').
    { exists x. split; [|done]. apply elem_of_cons in Hin as [->|]; done. }
    exists (a :: pre), x', post. split; [done|]. split; [|done].
    intros y [->|Hy]%elem_of_cons; auto.
Qed.

Section customize.
Variable py_format : heap → value → string.

Lemma customize_fields_frame names : ∀ h rv l h' r,
  customize_fields h rv l names = (h', r) → frame rv h h'.
Proof.
  induction names as [|name names IH]; simpl; intros h rv l h' r.
  - intros [= <- _]. apply frame_refl.
  - destruct (getattr h l name ≫= _) as [h1|e] eqn:Hset.
    + intros Hrest. eapply frame_trans; [|by eapply IH].
      destruct (getattr h l name) as [v|]; [|done].
      by eapply setattr_frame.
    + intros [= <- _]. apply frame_refl.
Qed.

Lemma customize_items_frame items : ∀ h rv h' r,
  customize_items py_format h rv items = (h', r) → frame rv h h'.
Proof.
  induction items as [|[key v] items IH]; simpl; intros h rv h' r.
  - intros [= <- _]. apply frame_refl.
  - destruct v; try by apply IH.
    all: destruct (setattr h rv key _) as [h1|e] eqn:Hset;
      [ intros Hrest; eapply frame_trans;
        [by eapply setattr_frame | by eapply IH]
      | intros [= <- _]; apply frame_refl ].
Qed.

Lemma copy_deep_model h self fields attrs :
  h !! self = Some (OModel fields attrs) →
  copy_deep h self
  = (h ++ (map_object (shift_value (length h)) <$> h), Ok (self + length h))
  ∧ model_at (h ++ (map_object (shift_value (length h)) <$> h))
      (self + length h) fields.
Proof.
  intros Hself. unfold copy_deep. rewrite Hself. split; [done|].
  eexists. rewrite lookup_app_r by lia.
  replace (self + length h - length h) with self by lia.
  by rewrite list_lookup_fmap, Hself.
Qed.

(** No object that exists before a call of [customize] is changed by
    it, whatever the overrides and whether it returns or raises. *)
Lemma customize_take h self custom_settings :
  take (length h) (customize py_format h self custom_settings).1 = h.
Proof.
  unfold customize.
  destruct (h !! self) as [[fields attrs| |]|] eqn:Hself;
    try (unfold copy_deep; rewrite Hself; simpl; by rewrite take_ge).
  destruct (copy_deep_model _ _ _ _ Hself) as [-> _].
  set (h1 := h ++ _).
  assert (take (length h) h1 = h) as Hh1 by apply take_app_length.
  destruct (truthy h1 custom_settings); [|done].
  destruct custom_settings as [| | | |l]; try done.
  destruct (h1 !! l) as [[fields' attrs'|items|elems]|]; try done.
  - destruct (customize_fields _ _ _ _) as [h2 r] eqn:Hloop. simpl.
    apply customize_fields_frame in Hloop.
    eapply frame_take; [done | lia | done].
  - destruct (customize_items _ _ _ _) as [h2 r] eqn:Hloop. simpl.
    apply customize_items_frame in Hloop.
    eapply frame_take; [done | lia | done].
Qed.

(** *** The two loops of [customize] *)


Lemma customize_fields_step h rv l name names :
  customize_fields h rv l (name :: names)
  = match getattr h l name with
    | Ok v =>
        match setattr h rv name v with
        | Ok h' => customize_fields h' rv l names
        | Raise _ =>
            (h, Raise (AssertionError ("Invalid setting: " +:+ name)))
        end
    | Raise _ => (h, Raise (AssertionError ("Invalid setting: " +:+ name)))
    end.
Proof. simpl. by destruct (getattr h l name). Qed.

Lemma customize_items_step h rv key v items :
  customize_items py_format h rv ((key, v) :: items)
  = if decide (v = VNone) then customize_items py_format h rv items
    else match setattr h rv key v with
         | Ok h' => customize_items py_format h' rv items
         | Raise _ =>
             (h, Raise (AssertionError
                   ("Invalid setting: (" +:+ key +:+ ": "
                      +:+ py_format h v +:+ ")")))
         end.
Proof. by destruct v. Qed.

Lemma customize_fields_other names : ∀ h rv l h' r name,
  customize_fields h rv l names = (h', r) → name ∉ names →
  getattr h' rv name = getattr h rv name.
Proof.
  induction names as [|name0 names IH]; intros h rv l h' r name.
  - by intros [= <- _].
  - rewrite customize_fields_step, not_elem_of_cons. intros Hloop [Hne Hnot].
    destruct (getattr h l name0) as [v|]; [|by injection Hloop as <- _].
    destruct (setattr h rv name0 v) as [h1|] eqn:Hset;
      [|by injection Hloop as <- _].
    rewrite (IH _ _ _ _ _ _ Hloop Hnot).
    eapply getattr_setattr_ne; [done | congruence].
Qed.

(** After the loop over the fields of the overriding node, each of
    them has in [rv] the value it has in the overriding node. *)
Lemma customize_fields_Ok names : ∀ h rv l h',
  rv ≠ l → customize_fields h rv l names = (h', Ok ()) →
  ∀ name, name ∈ names →
    ∃ v, getattr h l name = Ok v ∧ getattr h' rv name = Ok v.
Proof.
  induction names as [|name0 names IH]; intros h rv l h' Hne.
  - intros _ name Hin. by apply elem_of_nil in Hin.
  - rewrite customize_fields_step. intros Hloop name Hin.
    destruct (getattr h l name0) as [v0|] eqn:Hget; [|done].
    destruct (setattr h rv name0 v0) as [h1|] eqn:Hset; [|done].
    destruct (decide (name ∈ names)) as [Hin'|Hnot].
    + destruct (IH _ _ _ _ Hne Hloop _ Hin') as (v & Hv & Hrv).
      exists v. split; [|done]. rewrite <- Hv. symmetry.
      eapply getattr_frame; [by eapply setattr_frame | congruence].
    + apply elem_of_cons in Hin as [->|]; [|done].
      exists v0. split; [done|].
      rewrite (customize_fields_other _ _ _ _ _ _ _ Hloop Hnot).
      by eapply getattr_setattr_eq.
Qed.

Lemma customize_fields_total names : ∀ h rv l fields,
  rv ≠ l → model_at h rv fields →
  (∀ name, name ∈ names →
     name ∈ fields ∧ ∃ v, getattr h l name = Ok v) →
  ∃ h', customize_fields h rv l names = (h', Ok ()).
Proof.
  induction names as [|name0 names IH]; intros h rv l fields Hne Hrv Hall.
  - by eexists.
  - rewrite customize_fields_step.
    destruct (Hall name0) as (Hin & v0 & Hget); [by left|]. rewrite Hget.
    destruct (setattr h rv name0 v0) as [h1|e] eqn:Hset.
    + pose proof (setattr_frame _ _ _ _ _ Hset) as Hframe.
      apply (IH h1 rv l fields); [done | by apply Hframe |].
      intros name Hname. destruct (Hall name) as (? & v & Hv); [by right|].
      split; [done|]. exists v. rewrite <- Hv.
      eapply getattr_frame; [done | congruence].
    + eapply setattr_Raise in Hset as [_ Hnot]; done.
Qed.

Lemma customize_items_other items : ∀ h rv h' r key,
  customize_items py_format h rv items = (h', r) →
  key ∉ dict_keys items → getattr h' rv key = getattr h rv key.
Proof.
  induction items as [|[key0 v0] items IH]; intros h rv h' r key.
  - by intros [= <- _].
  - rewrite customize_items_step. unfold dict_keys. rewrite fmap_cons.
    rewrite not_elem_of_cons. simpl. intros Hloop [Hne Hnot].
    case_decide; [by eapply IH|].
    destruct (setattr h rv key0 v0) as [h1|] eqn:Hset;
      [|by injection Hloop as <- _].
    rewrite (IH _ _ _ _ _ Hloop Hnot).
    eapply getattr_setattr_ne; [done | congruence].
Qed.

(** After the loop over the items of an overriding mapping, a key with
    a value other than [None] has that value in [rv], and a key with
    the value [None] has in [rv] what it had. *)
Lemma customize_items_Ok items : ∀ h rv h',
  NoDup (dict_keys items) →
  customize_items py_format h rv items = (h', Ok ()) →
  ∀ key v, (key, v) ∈ items →
    if decide (v = VNone) then getattr h' rv key = getattr h rv key
    else getattr h' rv key = Ok v.
Proof.
  induction items as [|[key0 v0] items IH]; intros h rv h' Hdup.
  - intros _ key v Hin. by apply elem_of_nil in Hin.
  - unfold dict_keys in Hdup. rewrite fmap_cons in Hdup.
    apply NoDup_cons in Hdup as [Hnot Hdup]. simpl in Hnot.
    rewrite customize_items_step. intros Hloop key v Hin.
    apply elem_of_cons in Hin as [[= -> ->]|Hin].
    + case_decide as Hv.
      * by eapply customize_items_other.
      * destruct (setattr h rv key0 v0) as [h1|] eqn:Hset; [|done].
        rewrite (customize_items_other _ _ _ _ _ _ Hloop Hnot).
        by eapply getattr_setattr_eq.
    + assert (key ≠ key0) as Hne.
      { intros ->. apply Hnot. apply list_elem_of_fmap. by exists (key0, v). }
      destruct (decide (v0 = VNone)) as [Hv0|Hv0]; [by eapply IH|].
      destruct (setattr h rv key0 v0) as [h1|] eqn:Hset; [|done].
      pose proof (IH _ _ _ Hdup Hloop _ _ Hin) as Hkey.
      case_decide; [|done]. rewrite Hkey.
      eapply getattr_setattr_ne; [done | congruence].
Qed.

Lemma customize_items_total items : ∀ h rv fields,
  model_at h rv fields →
  (∀ key v, (key, v) ∈ items → v ≠ VNone → key ∈ fields) →
  ∃ h', customize_items py_format h rv items = (h', Ok ()).
Proof.
  induction items as [|[key0 v0] items IH]; intros h rv fields Hrv Hall.
  - by eexists.
  - rewrite customize_items_step.
    assert (∀ key v, (key, v) ∈ items → v ≠ VNone → key ∈ fields) as Hall'.
    { intros key v Hin. apply Hall. by right. }
    case_decide as Hv0; [by eapply IH|].
    destruct (setattr h rv key0 v0) as [h1|e] eqn:Hset.
    + apply (IH h1 rv fields); [|done].
      by apply (setattr_frame _ _ _ _ _ Hset).
    + eapply setattr_Raise in Hset as [_ Hnot]; [|done]. destruct Hnot.
      apply (Hall key0 v0); [by left | done].
Qed.

(** The overrides that come before the first one that cannot be
    assigned are assigned: the loops go through them. *)
Lemma customize_fields_app pre : ∀ h rv l fields rest,
  rv ≠ l → model_at h rv fields →
  (∀ name, name ∈ pre →
     (name ∈ DUNDER_ATTRIBUTES ∨ name ∈ fields)
     ∧ ∃ v, getattr h l name = Ok v) →
  ∃ h1, frame rv h h1
        ∧ customize_fields h rv l (pre ++ rest) = customize_fields h1 rv l rest.
Proof.
  induction pre as [|name0 pre IH]; intros h rv l fields rest Hne Hrv Hall.
  - exists h. split; [apply frame_refl | done].
  - rewrite <- app_comm_cons, customize_fields_step.
    destruct (Hall name0) as (Hin & v0 & Hget); [by left|]. rewrite Hget.
    destruct (setattr_accepts h rv fields name0 v0 Hrv Hin) as [h1 Hset].
    rewrite Hset.
    pose proof (setattr_frame _ _ _ _ _ Hset) as Hframe.
    destruct (IH h1 rv l fields rest) as (h2 & Hframe2 & Hloop);
      [done | by apply Hframe | |].
    { intros name Hname. destruct (Hall name) as (? & v & Hv); [by right|].
      split; [done|]. exists v. rewrite <- Hv.
      eapply getattr_frame; [done | congruence]. }
    exists h2. split; [by eapply frame_trans | done].
Qed.

Lemma customize_items_app pre : ∀ h rv fields rest,
  model_at h rv fields →
  (∀ key v, (key, v) ∈ pre →
     v = VNone ∨ key ∈ DUNDER_ATTRIBUTES ∨ key ∈ fields) →
  ∃ h1, frame rv h h1
        ∧ customize_items py_format h rv (pre ++ rest)
          = customize_items py_format h1 rv rest.
Proof.
  induction pre as [|[key0 v0] pre IH]; intros h rv fields rest Hrv Hall.
  - exists h. split; [apply frame_refl | done].
  - rewrite <- app_comm_cons, customize_items_step.
    assert (∀ key v, (key, v) ∈ pre →
              v = VNone ∨ key ∈ DUNDER_ATTRIBUTES ∨ key ∈ fields) as Hall'.
    { intros key v Hin. apply Hall. by right. }
    case_decide as Hv0; [by eapply IH|].
    destruct (Hall key0 v0) as [?|Hin]; [by left | done |].
    destruct (setattr_accepts h rv fields key0 v0 Hrv Hin) as [h1 Hset].
    rewrite Hset.
    pose proof (setattr_frame _ _ _ _ _ Hset) as Hframe.
    destruct (IH h1 rv fields rest) as (h2 & Hframe2 & Hloop);
      [by apply Hframe | done |].
    exists h2. split; [by eapply frame_trans | done].
Qed.

(** *** [customize] as a whole *)


Lemma getattr_extend (h ext : heap) l name :
  l < length h → getattr (h ++ ext) l name = getattr h l name.
Proof. intros Hl. unfold getattr. by rewrite lookup_app_l. Qed.

(** The attributes of the copy are the images of those of the base. *)
Lemma getattr_image (h : heap) l name :
  l < length h →
  getattr (image h) (l + length h) name
  = shift_value (length h) <$> getattr h l name.
Proof.
  intros Hl. unfold getattr. rewrite lookup_app_r by lia.
  replace (l + length h - length h) with l by lia.
  rewrite list_lookup_fmap.
  destruct (h !! l) as [[fields attrs| |]|]; try done. simpl.
  induction attrs as [|[k v] attrs IH]; simpl; [done|].
  by case_decide.
Qed.

(** [customize] with an overriding node is the loop over its fields. *)
Lemma customize_node h self fields attrs l fieldsO attrsO :
  h !! self = Some (OModel fields attrs) →
  h !! l = Some (OModel fieldsO attrsO) →
  customize py_format h self (VRef l)
  = ((customize_fields (image h) (self + length h) l fieldsO).1,
     (λ _, VRef (self + length h))
       <$> (customize_fields (image h) (self + length h) l fieldsO).2).
Proof.
  intros Hself Hl. unfold customize.
  destruct (copy_deep_model _ _ _ _ Hself) as [-> _].
  assert (l < length h) as Hlt by (by eapply lookup_lt_Some).
  simpl. rewrite lookup_app_l, Hl by done.
  by destruct (customize_fields _ _ _ _).
Qed.

(** [customize] with a mapping is the loop over its items. *)
Lemma customize_mapping h self fields attrs l items :
  h !! self = Some (OModel fields attrs) →
  h !! l = Some (ODict items) →
  customize py_format h self (VRef l)
  = ((customize_items py_format (image h) (self + length h) items).1,
     (λ _, VRef (self + length h))
       <$> (customize_items py_format (image h) (self + length h) items).2).
Proof.
  intros Hself Hl. unfold customize.
  destruct (copy_deep_model _ _ _ _ Hself) as [-> _].
  assert (l < length h) as Hlt by (by eapply lookup_lt_Some).
  simpl. rewrite lookup_app_l, Hl by done.
  destruct items as [|item items]; [done|].
  by destruct (customize_items _ _ _ _).
Qed.

(** The loop over the fields of an overriding node stops at the first
    field that the copy does not accept or that has no value. *)
Lemma customize_node_first h self fields attrs l fieldsO attrsO pre name post :
  h !! self = Some (OModel fields attrs) →
  h !! l = Some (OModel fieldsO attrsO) →
  fieldsO = pre ++ name :: post →
  (∀ f, f ∈ pre →
     (f ∈ DUNDER_ATTRIBUTES ∨ f ∈ fields) ∧ is_Some (dict_get f attrsO)) →
  ((name ∉ DUNDER_ATTRIBUTES) ∧ name ∉ fields) ∨ dict_get name attrsO = None →
  ∃ h',
    customize py_format h self (VRef l)
    = (h', Raise (AssertionError ("Invalid setting: " +:+ name))).
Proof.
  intros Hself Hl -> Hpre Hbad.
  assert (self < length h) as Hslt by (by eapply lookup_lt_Some).
  assert (l < length h) as Hlt by (by eapply lookup_lt_Some).
  destruct (copy_deep_model _ _ _ _ Hself) as [_ Hrv].
  rewrite (customize_node _ _ _ _ _ _ _ Hself Hl).
  destruct (customize_fields_app pre (image h) (self + length h) l fields
              (name :: post)) as (h1 & Hframe & ->); [lia | done | |].
  { intros f Hf. destruct (Hpre f Hf) as [? [v Hv]]. split; [done|].
    exists v. rewrite getattr_extend by done.
    unfold getattr. by rewrite Hl, Hv. }
  exists h1. rewrite customize_fields_step.
  assert (getattr h1 l name = getattr h l name) as ->.
  { rewrite (getattr_frame _ _ _ _ _ Hframe) by lia.
    by apply getattr_extend. }
  destruct (getattr h l name) as [v|e] eqn:Hget; [|done].
  destruct (setattr h1 (self + length h) name v) as [h2|e] eqn:Hset;
    [|done].
  apply setattr_Ok in Hset as (fields' & attrs' & Hl' & Hin & _).
  destruct (proj2 (proj2 Hframe) _ Hrv) as [attrs'' Hrv'].
  rewrite Hrv' in Hl'. injection Hl' as <- <-.
  destruct Hbad as [[Hd Hf]|Hbad]; [by destruct Hin|].
  unfold getattr in Hget. rewrite Hl, Hbad in Hget. done.
Qed.

(** The loop over the items of an overriding mapping stops at the first
    item with a value other than [None] whose key the copy does not
    accept. *)
Lemma customize_mapping_first h self fields attrs l items pre key v post :
  h !! self = Some (OModel fields attrs) →
  h !! l = Some (ODict items) →
  items = pre ++ (key, v) :: post →
  (∀ k v', (k, v') ∈ pre →
     v' = VNone ∨ k ∈ DUNDER_ATTRIBUTES ∨ k ∈ fields) →
  v ≠ VNone → key ∉ DUNDER_ATTRIBUTES → key ∉ fields →
  ∃ h',
    customize py_format h self (VRef l)
    = (h', Raise (AssertionError
             ("Invalid setting: (" +:+ key +:+ ": "
                +:+ py_format h' v +:+ ")"))).
Proof.
  intros Hself Hl -> Hpre Hv Hdunder Hkey.
  destruct (copy_deep_model _ _ _ _ Hself) as [_ Hrv].
  rewrite (customize_mapping _ _ _ _ _ _ Hself Hl).
  destruct (customize_items_app pre (image h) (self + length h) fields
              ((key, v) :: post) Hrv Hpre) as (h1 & Hframe & ->).
  exists h1. rewrite customize_items_step, decide_False by done.
  destruct (setattr h1 (self + length h) key v) as [h2|e] eqn:Hset;
    [|done].
  apply setattr_Ok in Hset as (fields' & attrs' & Hl' & Hin & _).
  destruct (proj2 (proj2 Hframe) _ Hrv) as [attrs'' Hrv'].
  rewrite Hrv' in Hl'. injection Hl' as <- <-. by destruct Hin.
Qed.

(** C2.  What [customize] does with overrides that name something the
    base does not have.  When an overriding node has a field that the
    copy does not accept (it is no field of the base, and none of the
    names that pydantic stores unchecked), [customize] raises and returns
    no node: the error is an [AssertionError] whose message is
    [Invalid setting: ] followed by the name of the first field of the
    overriding node that could not be assigned, every field before it
    having been accepted.  When an overriding mapping binds such a name
    to a value other than [None], the message names the key and the
    value of the first such item.  A mapping whose keys are each bound
    to [None], or a name of [DUNDER_ATTRIBUTES], or a field of the base,
    raises nothing: a key that is no field of the base goes unreported
    when its value is [None] or when it is one of these names. *)
Theorem customize_rejects_unknown_field h self fields attrs l :
  h !! self = Some (OModel fields attrs) →
  (∀ fieldsO attrsO,
     h !! l = Some (OModel fieldsO attrsO) →
     (∃ name, name ∈ fieldsO ∧ (name ∉ DUNDER_ATTRIBUTES) ∧ name ∉ fields) →
     ∃ h' pre name post,
       customize py_format h self (VRef l)
       = (h', Raise (AssertionError ("Invalid setting: " +:+ name)))
       ∧ fieldsO = pre ++ name :: post
       ∧ (∀ f, f ∈ pre →
            (f ∈ DUNDER_ATTRIBUTES ∨ f ∈ fields)
            ∧ is_Some (dict_get f attrsO))
       ∧ (((name ∉ DUNDER_ATTRIBUTES) ∧ name ∉ fields)
          ∨ dict_get name attrsO = None))
  ∧ (∀ items,
       h !! l = Some (ODict items) →
       (∃ key v, (key, v) ∈ items ∧ v ≠ VNone
                 ∧ (key ∉ DUNDER_ATTRIBUTES) ∧ key ∉ fields) →
       ∃ h' pre key v post,
         customize py_format h self (VRef l)
         = (h', Raise (AssertionError
                  ("Invalid setting: (" +:+ key +:+ ": "
                     +:+ py_format h' v +:+ ")")))
         ∧ items = pre ++ (key, v) :: post
         ∧ (∀ k v', (k, v') ∈ pre →
              v' = VNone ∨ k ∈ DUNDER_ATTRIBUTES ∨ k ∈ fields)
         ∧ v ≠ VNone ∧ (key ∉ DUNDER_ATTRIBUTES) ∧ key ∉ fields)
  ∧ (∀ items,
       h !! l = Some (ODict items) →
       (∀ key v, (key, v) ∈ items →
          v = VNone ∨ key ∈ DUNDER_ATTRIBUTES ∨ key ∈ fields) →
       ∃ h' rv, customize py_format h self (VRef l) = (h', Ok (VRef rv))).
Proof.
  intros Hself. split; [|split].
  - intros fieldsO attrsO Hl (bad & Hin & Hd & Hf).
    destruct (first_such
                (λ name, ¬ ((name ∈ DUNDER_ATTRIBUTES ∨ name ∈ fields)
                            ∧ is_Some (dict_get name attrsO))) fieldsO)
      as (pre & name & post & E & Hpre & Hname).
    { exists bad. split; [done|]. by intros [[?|?] _]. }
    assert (∀ f, f ∈ pre →
              (f ∈ DUNDER_ATTRIBUTES ∨ f ∈ fields)
              ∧ is_Some (dict_get f attrsO)) as Hpre'.
    { intros f Hf'. by apply dec_stable, Hpre. }
    assert (((name ∉ DUNDER_ATTRIBUTES) ∧ name ∉ fields)
            ∨ dict_get name attrsO = None) as Hname'.
    { destruct (decide (name ∈ DUNDER_ATTRIBUTES ∨ name ∈ fields))
        as [Ha|Ha]; [right | left; tauto].
      destruct (dict_get name attrsO) eqn:Hget; [|done].
      destruct Hname. split; [done | by eexists]. }
    destruct (customize_node_first _ _ _ _ _ _ _ _ _ _ Hself Hl E Hpre' Hname')
      as [h' Hcall].
    by exists h', pre, name, post.
  - intros items Hl (bad & vbad & Hin & Hv & Hd & Hf).
    destruct (first_such
                (λ item : string * value,
                   item.2 ≠ VNone ∧ (item.1 ∉ DUNDER_ATTRIBUTES)
                   ∧ item.1 ∉ fields) items)
      as (pre & [key v] & post & E & Hpre & Hv' & Hd' & Hf').
    { by exists (bad, vbad). }
    simpl in Hv', Hd', Hf'.
    assert (∀ k v', (k, v') ∈ pre →
              v' = VNone ∨ k ∈ DUNDER_ATTRIBUTES ∨ k ∈ fields) as Hpre'.
    { intros k v' Hk. specialize (Hpre _ Hk). simpl in Hpre.
      destruct (decide (v' = VNone)); [by left|].
      destruct (decide (k ∈ DUNDER_ATTRIBUTES)); [by right; left|].
      destruct (decide (k ∈ fields)); [by right; right|]. by destruct Hpre. }
    destruct (customize_mapping_first _ _ _ _ _ _ _ _ _ _ Hself Hl E Hpre'
                Hv' Hd' Hf') as [h' Hcall].
    by exists h', pre, key, v, post.
  - intros items Hl Hall.
    destruct (copy_deep_model _ _ _ _ Hself) as [_ Hrv].
    destruct (customize_items_app items (image h) (self + length h) fields
                [] Hrv Hall) as (h1 & _ & Hloop).
    rewrite app_nil_r in Hloop.
    exists h1, (self + length h).
    by rewrite (customize_mapping _ _ _ _ _ _ Hself Hl), Hloop.
Qed.

(** C3.  With an overriding node, every field of the class of that
    node has in the result the value it has in the overriding node,
    and the call returns when the base has all these fields and the
    overriding node a value for each.  With an overriding mapping, a
    key bound to a value other than [None] has that value in the
    result and a key bound to [None] has the copy of the value of the
    base; the call returns when every key bound to a value other than
    [None] is a field of the base. *)
Theorem customize_node_applies_all_mapping_skips_None h self fields attrs l :
  h !! self = Some (OModel fields attrs) →
  (∀ fieldsO attrsO,
     h !! l = Some (OModel fieldsO attrsO) →
     (∀ h' rv,
        customize py_format h self (VRef l) = (h', Ok (VRef rv)) →
        ∀ name, name ∈ fieldsO →
          ∃ v, getattr h l name = Ok v ∧ getattr h' rv name = Ok v)
     ∧ ((∀ name, name ∈ fieldsO →
           name ∈ fields ∧ is_Some (dict_get name attrsO)) →
        ∃ h' rv, customize py_format h self (VRef l) = (h', Ok (VRef rv))))
  ∧ (∀ items,
       h !! l = Some (ODict items) →
       NoDup (dict_keys items) →
       (∀ h' rv,
          customize py_format h self (VRef l) = (h', Ok (VRef rv)) →
          ∀ key v, (key, v) ∈ items →
            if decide (v = VNone)
            then getattr h' rv key
                 = shift_value (length h) <$> getattr h self key
            else getattr h' rv key = Ok v)
       ∧ ((∀ key v, (key, v) ∈ items → v ≠ VNone → key ∈ fields) →
          ∃ h' rv,
            customize py_format h self (VRef l) = (h', Ok (VRef rv)))).
Proof.
  intros Hself.
  assert (self < length h) as Hslt by (by eapply lookup_lt_Some).
  destruct (copy_deep_model _ _ _ _ Hself) as [_ Hrv].
  split.
  - intros fieldsO attrsO Hl.
    assert (l < length h) as Hlt by (by eapply lookup_lt_Some).
    rewrite (customize_node _ _ _ _ _ _ _ Hself Hl). split.
    + intros h' rv.
      destruct (customize_fields _ _ _ _) as [h2 [[]|e]] eqn:Hloop; [|done].
      intros [= <- <-] name Hin.
      assert (self + length h ≠ l) as Hne by lia.
      destruct (customize_fields_Ok _ _ _ _ _ Hne Hloop _ Hin)
        as (v & Hv & Hrv').
      exists v. split; [|done]. by rewrite getattr_extend in Hv.
    + intros Hall.
      destruct (customize_fields_total fieldsO (image h) (self + length h)
                  l fields) as [h' Hloop]; [lia | done | |].
      { intros name Hin. destruct (Hall name Hin) as [? [v Hv]].
        split; [done|]. exists v. rewrite getattr_extend by done.
        unfold getattr. by rewrite Hl, Hv. }
      exists h', (self + length h). by rewrite Hloop.
  - intros items Hl Hdup.
    rewrite (customize_mapping _ _ _ _ _ _ Hself Hl). split.
    + intros h' rv.
      destruct (customize_items _ _ _ _) as [h2 [[]|e]] eqn:Hloop; [|done].
      intros [= <- <-] key v Hin.
      pose proof (customize_items_Ok _ _ _ _ Hdup Hloop _ _ Hin)
        as Hkey.
      case_decide; [|done]. by rewrite Hkey, getattr_image.
    + intros Hall.
      destruct (customize_items_total items (image h)
                  (self + length h) fields Hrv Hall) as [h' Hloop].
      exists h', (self + length h). by rewrite Hloop.
Qed.

Lemma truthy_extend (h ext : heap) v :
  value_closed (length h) v = true → truthy (h ++ ext) v = truthy h v.
Proof.
  destruct v as [| | | |l]; simpl; try done.
  intros Hl%bool_decide_eq_true. by rewrite lookup_app_l.
Qed.

Lemma unfold_take (h h' : heap) depth v :
  heap_closed h = true → value_closed (length h) v = true →
  take (length h) h' = h → unfold depth h' v = unfold depth h v.
Proof.
  intros Hh Hv Htake. rewrite <- (take_drop (length h) h'), Htake.
  by apply unfold_extend.
Qed.

(** C4.  [customize] changes no object that exists when it is called,
    whatever the overrides.  With empty or absent overrides it returns
    a new node that is deeply equal to the base and shares nothing with
    it: every object that the returned node gives access to is new, so
    that assigning to any of them leaves the base, and every object
    that existed before the call, as it was. *)
Theorem customize_empty_independent_copy h self fields attrs custom_settings :
  heap_closed h = true →
  h !! self = Some (OModel fields attrs) →
  value_closed (length h) custom_settings = true →
  truthy h custom_settings = false →
  (∀ overrides,
     take (length h) (customize py_format h self overrides).1 = h)
  ∧ ∃ h' rv,
      customize py_format h self custom_settings = (h', Ok (VRef rv))
      ∧ rv ≠ self
      ∧ model_at h' rv fields
      ∧ deep_eq h' (VRef rv) h (VRef self)
      ∧ (∀ l, reachable h' (VRef rv) l → length h ≤ l)
      ∧ (∀ l o, reachable h' (VRef rv) l →
           take (length h) (<[l := o]> h') = h
           ∧ deep_eq (<[l := o]> h') (VRef self) h (VRef self)).
Proof.
  intros Hh Hself Hcs Hfalse. split; [intros; apply customize_take|].
  assert (self < length h) as Hlt by (by eapply lookup_lt_Some).
  destruct (copy_deep_model _ _ _ _ Hself) as [Hcopy Hrv].
  exists (h ++ (map_object (shift_value (length h)) <$> h)), (self + length h).
  assert (∀ l, reachable (h ++ (map_object (shift_value (length h)) <$> h))
                 (VRef (self + length h)) l → length h ≤ l) as Hnew.
  { intros l Hl. eapply reachable_image; [|done|].
    - intros l' o c Hl' Ho Hc l'' ->.
      by eapply (image_refs h l' o (VRef l'') l'').
    - intros l0 [= <-]. lia. }
  split; [|split; [lia|split; [done|split; [|split; [done|]]]]].
  - unfold customize. rewrite Hcopy, truthy_extend by done.
    by rewrite Hfalse.
  - intros depth.
    apply (unfold_image h depth (VRef self)); [done|].
    by apply bool_decide_eq_true.
  - intros l o Hl. apply Hnew in Hl.
    assert (take (length h)
              (<[l:=o]> (h ++ (map_object (shift_value (length h)) <$> h)))
            = h) as Htake.
    { rewrite insert_app_r_alt by done. apply take_app_length. }
    split; [done|]. intros depth. apply unfold_take; [done| |done].
    by apply bool_decide_eq_true.
Qed.
End customize.

(** *** The theorems at concrete heaps *)

(** [customize(B, {'nonexistent_field': 1})] raises, and the message names
    the key and the value. *)
Example customize_nonexistent_field_raises :
  (customize Examples.show Examples.store 0 (VRef 4)).2
  = Raise (AssertionError "Invalid setting: (nonexistent_field: 1)").
Proof. reflexivity. Qed.

(** [customize(B, {'__doc__': 'x', 'zz': 1})] stores [__doc__] and
    reports [zz]. *)
Example customize_dunder_then_unknown_raises :
  (customize Examples.show Examples.dunder_store 0 (VRef 2)).2
  = Raise (AssertionError "Invalid setting: (zz: 1)").
Proof. reflexivity. Qed.

(** [customize(B, {'nonexistent_field': None})] and
    [customize(B, {'__doc__': 'x'})] name something that is no field of
    the base, and return a node. *)
Lemma customize_unknown_keys_accepted :
  py_in "nonexistent_field" ["x"; "y"] = false
  ∧ py_in "__doc__" ["x"; "y"] = false
  ∧ (∃ h' rv,
       customize Examples.show Examples.store 0 (VRef 3) = (h', Ok (VRef rv)))
  ∧ (∃ h' rv,
       customize Examples.show Examples.dunder_store 0 (VRef 1)
       = (h', Ok (VRef rv))).
Proof.
  split; [done|]. split; [done|]. split.
  - apply (proj2 (proj2 (customize_rejects_unknown_field Examples.show
                           Examples.store 0 _ _ 3 eq_refl))
             [("nonexistent_field", VNone)] eq_refl).
    intros key v Hin. apply list_elem_of_singleton in Hin as [= -> ->].
    by left.
  - apply (proj2 (proj2 (customize_rejects_unknown_field Examples.show
                           Examples.dunder_store 0 _ _ 1 eq_refl))
             [("__doc__", VStr "x")] eq_refl).
    intros key v Hin. apply list_elem_of_singleton in Hin as [= -> ->].
    right. left. by apply py_in_true.
Defined.

(** [B = {x: 1, y: 2}] with the overriding node [{x: 1, y: 99}] gives
    [{x: 1, y: 99}]. *)
Lemma customize_xy_node :
  ∃ h' rv,
    customize Examples.show Examples.store 0 (VRef 1) = (h', Ok (VRef rv))
    ∧ getattr h' rv "x" = Ok (VInt 1)
    ∧ getattr h' rv "y" = Ok (VInt 99).
Proof.
  destruct (proj1 (customize_node_applies_all_mapping_skips_None
                     Examples.show Examples.store 0 _ _ 1 eq_refl)
              ["x"; "y"] _ eq_refl) as [Hfields Hreturns].
  destruct Hreturns as (h' & rv & Hcall).
  - intros name Hin. split; [done|].
    apply elem_of_cons in Hin as [->|Hin]; [by eexists|].
    apply list_elem_of_singleton in Hin as ->. by eexists.
  - exists h', rv. split; [done|].
    destruct (Hfields h' rv Hcall "x") as (vx & Hx & ->); [by left|].
    destruct (Hfields h' rv Hcall "y") as (vy & Hy & ->); [by right; left|].
    by rewrite <- Hx, <- Hy.
Defined.

(** [B = {x: 1, y: 2}] with the mapping [{'x': None, 'y': 5}] gives
    [{x: 1, y: 5}]. *)
Example customize_xy_mapping :
  (customize Examples.show Examples.store 0 (VRef 2)).2 = Ok (VRef 6)
  ∧ getattr (customize Examples.show Examples.store 0 (VRef 2)).1 6 "x"
    = Ok (VInt 1)
  ∧ getattr (customize Examples.show Examples.store 0 (VRef 2)).1 6 "y"
    = Ok (VInt 5).
Proof. by repeat split. Qed.

(** [customize(B, {})] on a base that holds a list. *)
Lemma customize_nested_empty :
  ∃ h' rv,
    customize Examples.show Examples.nested_store 0 (VRef 2)
    = (h', Ok (VRef rv))
    ∧ deep_eq h' (VRef rv) Examples.nested_store (VRef 0)
    ∧ (∀ l o, reachable h' (VRef rv) l →
         take 3 (<[l := o]> h') = Examples.nested_store).
Proof.
  destruct (customize_empty_independent_copy Examples.show
              Examples.nested_store 0 _ _ (VRef 2)
              eq_refl eq_refl eq_refl eq_refl)
    as [_ (h' & rv & Hcall & _ & _ & Heq & _ & Hindep)].
  exists h', rv. split; [done|]. split; [done|].
  intros l o Hl. by apply Hindep.
Defined.

End SettingsFacts.

(** ** How [filter] and the keyed queries fit together *)

Module OptionsCompositionFacts.
Import OptionsBase Options OptionsBaseFacts OptionsFacts.

Section composition.
Context {V : Type}.
Implicit Types (self : Options.t V) (d : dict V).

Lemma filter_true self (value : string) :
  filter self value = true
  ↔ match include self with
    | None | Some [] => True
    | Some inc => value ∈ inc ∨ "*" ∈ inc
    end
    ∧ match exclude self with
      | None | Some [] => True
      | Some exc => (value ∉ exc) ∧ ("*" ∉ exc)
      end.
Proof.
  unfold filter. rewrite andb_true_iff, negb_true_iff.
  assert (∀ A B C D : Prop, (A ↔ C) → (B ↔ D) → (A ∧ B ↔ C ∧ D)) as Hand
    by tauto.
  apply Hand.
  - destruct (include self) as [[|x inc]|]; [done | | done].
    by rewrite orb_true_iff, !py_in_true.
  - destruct (exclude self) as [[|x exc]|]; [done | | done].
    by rewrite orb_false_iff, !py_in_false.
Qed.

Lemma elem_of_filter_not_in (exc start : list string) k :
  k ∈ List.filter (λ key, negb (py_in key exc)) start ↔ k ∈ start ∧ k ∉ exc.
Proof.
  by rewrite list_elem_of_In, filter_In, <- list_elem_of_In,
    negb_true_iff, py_in_false.
Qed.

(** The list of [filtered_keys] in terms of membership. *)
Lemma elem_of_filtered_keys self keys k :
  filtered_keys self = Ok keys →
  k ∈ keys
  ↔ (match include self with
     | Some inc =>
         if py_in "*" inc then ∃ d, options self = Some d ∧ k ∈ dict_keys d
         else k ∈ inc
     | None => ∃ d, options self = Some d ∧ k ∈ dict_keys d
     end)
    ∧ match exclude self with
      | Some exc => (k ∉ exc) ∧ ("*" ∉ exc)
      | None => True
      end.
Proof.
  unfold filtered_keys, options_keys.
  assert (∀ start : list string,
    match exclude self with
    | Some exc =>
        if py_in "*" exc then Ok []
        else Ok (List.filter (λ key, negb (py_in key exc)) start)
    | None => Ok (List.filter (λ key, negb (py_in key [])) start)
    end = Ok keys →
    k ∈ keys ↔ k ∈ start ∧ match exclude self with
                           | Some exc => (k ∉ exc) ∧ ("*" ∉ exc)
                           | None => True
                           end) as Hexc.
  { intros start. destruct (exclude self) as [exc|].
    - destruct (py_in "*" exc) eqn:Hstar; intros [= <-].
      + apply py_in_true in Hstar. split; [by intros ?%elem_of_nil | tauto].
      + apply py_in_false in Hstar. rewrite elem_of_filter_not_in. tauto.
    - change (List.filter (λ key, negb (py_in key [])) start)
        with (Spec.without_excluded None start).
      rewrite without_excluded_None. intros [= <-]. tauto. }
  destruct (include self) as [inc|]; [destruct (py_in "*" inc)|];
    destruct (options self) as [d|]; simpl; try done;
    intros Hk%Hexc; rewrite Hk; clear Hk Hexc; try done;
    (split; intros [Hstart ?]; (split; [|done]);
      [by eauto | by destruct Hstart as (d' & [= <-] & ?)]).
Qed.

(** X1.  Unless the include list is the empty list, [filtered_keys] lists
    an option exactly when [filter] accepts its name; with an include list
    that does not hold the wildcard this is so for every name, options or
    not. *)
Theorem filtered_keys_agree_with_filter self d :
  options self = Some d →
  include self ≠ Some [] →
  ∃ keys,
    filtered_keys self = Ok keys
    ∧ (∀ k, k ∈ dict_keys d → (k ∈ keys ↔ filter self k = true))
    ∧ (∀ inc, include self = Some inc → "*" ∉ inc →
         ∀ k, k ∈ keys ↔ filter self k = true).
Proof.
  intros Hd Hne. destruct (filtered_keys_total _ _ Hd) as [keys Hkeys].
  exists keys. split; [done|].
  assert (∀ k,
    match exclude self with
    | Some exc => (k ∉ exc) ∧ ("*" ∉ exc)
    | None => True
    end
    ↔ match exclude self with
      | None | Some [] => True
      | Some exc => (k ∉ exc) ∧ ("*" ∉ exc)
      end) as Hexc.
  { intros k. destruct (exclude self) as [[|x exc]|]; [|done|done].
    split; [done|]. intros _. split; apply not_elem_of_nil. }
  split.
  - intros k Hk. rewrite (elem_of_filtered_keys _ _ _ Hkeys), filter_true, Hexc.
    rewrite Hd. destruct (include self) as [[|x inc]|]; [done| |].
    + destruct (py_in "*" (x :: inc)) eqn:Hstar.
      * apply py_in_true in Hstar. split; intros [_ ?]; split; eauto.
      * apply py_in_false in Hstar. tauto.
    + split; intros [_ ?]; split; eauto.
  - intros inc Hinc Hstar k.
    rewrite (elem_of_filtered_keys _ _ _ Hkeys), filter_true, Hexc, Hinc.
    apply py_in_false in Hstar as Hstar'. rewrite Hstar'.
    destruct inc as [|x inc]; [by rewrite Hinc in Hne|]. tauto.
Qed.

(** X2.  An empty include list means nothing to [filtered_keys] and
    everything to [filter]: the three queries return the empty list,
    whatever the options and the exclude list, while [filter] accepts
    every value that the exclude list does not exclude. *)
Theorem empty_include_list self :
  include self = Some [] →
  filtered_keys self = Ok []
  ∧ filtered_values self = Ok []
  ∧ filtered_items self = Ok []
  ∧ (∀ value,
       filter self value = true ↔ ¬ Spec.excluded value (exclude self)).
Proof.
  intros Hinc.
  assert (filtered_keys self = Ok []) as Hkeys.
  { unfold filtered_keys. rewrite Hinc. simpl.
    destruct (exclude self) as [exc|]; [by destruct (py_in "*" exc) | done]. }
  unfold filtered_values, filtered_items. rewrite Hkeys. simpl.
  repeat split; try done.
  - rewrite filter_true, Hinc. intros [_ Hexc] [Hne Hin].
    destruct (exclude self) as [[|x exc]|].
    + apply Hne. by right.
    + destruct Hexc as [H1 H2].
      destruct Hin as [Hin|Hin]; apply member_Some in Hin; done.
    + apply Hne. by left.
  - intros Hexc. rewrite filter_true, Hinc. split; [done|].
    destruct (exclude self) as [[|x exc]|] eqn:E; [done | | done].
    split; intros Hin; apply Hexc;
      (split; [by intros [|] |]); [left | right]; by apply member_Some.
Qed.

Lemma omap_ext_elem_of {A B} (f g : A → option B) (l : list A) :
  (∀ x, x ∈ l → f x = g x) → omap f l = omap g l.
Proof.
  induction l as [|x l IH]; [done|]. intros Hfg. csimpl.
  rewrite (Hfg x) by (by left). rewrite IH; [done|].
  intros y ?. apply Hfg. by right.
Qed.

(** Looking keys of a mapping up in the mapping. *)
Lemma omap_lookup_keys d (P : string → bool) :
  NoDup (dict_keys d) →
  omap (λ k, pair k <$> dict_get k d) (List.filter P (dict_keys d))
  = List.filter (λ item, P item.1) d.
Proof.
  induction d as [|[k v] d IH]; [done|].
  unfold dict_keys. rewrite fmap_cons. intros [Hk Hd]%NoDup_cons.
  assert (∀ keys : list string, (∀ k', k' ∈ keys → k' ∈ d.*1) →
            omap (λ k', pair k' <$> dict_get k' ((k, v) :: d)) keys
            = omap (λ k', pair k' <$> dict_get k' d) keys) as Htail.
  { intros keys Hsub. apply omap_ext_elem_of. intros k' Hk'.
    simpl. rewrite decide_False; [done|]. intros ->. by apply Hk, Hsub. }
  simpl List.filter. simpl fst. destruct (P k) eqn:HP.
  - simpl omap. simpl dict_get. rewrite decide_True by done. csimpl.
    f_equal. rewrite Htail; [by apply IH|].
    intros k' Hk'. apply list_elem_of_In, filter_In in Hk' as [Hk' _].
    by apply list_elem_of_In.
  - rewrite Htail; [by apply IH|].
    intros k' Hk'. apply list_elem_of_In, filter_In in Hk' as [Hk' _].
    by apply list_elem_of_In.
Qed.

(** X3.  Without an include list (or with one that holds the wildcard)
    and without the wildcard in the exclude list, [filtered_items] is the
    list of the items of [options], in their order, without those whose
    key the exclude list names, and [filtered_values] is the list of their
    values. *)
Theorem filtered_items_without_include self d :
  options self = Some d →
  NoDup (dict_keys d) →
  include self = None ∨ Spec.is_member "*" (include self) →
  ¬ Spec.is_member "*" (exclude self) →
  filtered_items self
  = Ok (List.filter
          (λ item, negb (py_in item.1 (default [] (exclude self)))) d)
  ∧ filtered_values self
    = Ok (List.filter
            (λ item, negb (py_in item.1 (default [] (exclude self)))) d).*2.
Proof.
  intros Hd Hdup Hinc Hexc.
  destruct (filtered_queries_total _ _ Hd) as (keys & Hk & Hv & Hi).
  assert (Spec.starts_from self (dict_keys d)) as Hstart.
  { right. split; [done|]. by exists d. }
  rewrite (filtered_keys_no_wildcard _ _ Hexc Hstart) in Hk.
  injection Hk as <-. unfold Spec.without_excluded in Hv, Hi.
  rewrite Hi, Hv, <- omap_items_values. by rewrite omap_lookup_keys.
Qed.

(** X4.  Over a mapping of options, the pairs of [filtered_items] are the
    keys of [filtered_keys] that are options, each with its option, and
    [filtered_values] is the list of the second components; no pair is
    made up. *)
Theorem filtered_items_are_options self d :
  options self = Some d →
  ∃ keys values items,
    filtered_keys self = Ok keys
    ∧ filtered_values self = Ok values
    ∧ filtered_items self = Ok items
    ∧ values = items.*2
    ∧ sublist items.*1 keys
    ∧ (∀ k v, (k, v) ∈ items ↔ k ∈ keys ∧ dict_get k d = Some v).
Proof.
  intros Hd. destruct (filtered_queries_total _ _ Hd) as (keys & Hk & Hv & Hi).
  exists keys. do 2 eexists. repeat (split; [eassumption|]).
  split; [by rewrite omap_items_values|]. split.
  - rewrite omap_items_keys. clear. induction keys as [|k keys IH]; simpl.
    + constructor.
    + destruct (dict_contains k d); by constructor.
  - intros k v. rewrite list_elem_of_omap. split.
    + intros (k' & Hin & Hget).
      destruct (dict_get k' d) as [v'|] eqn:E; [|done].
      by injection Hget as -> ->.
    + intros [Hin Hget]. exists k. by rewrite Hget.
Qed.

(** X5.  With [options] absent no query returns an option:
    [filtered_keys] raises [AttributeError] exactly when the include list
    is absent or holds the wildcard, and when it returns, the two queries
    that look options up return the empty list if it is empty and raise
    [TypeError] as soon as it has a key. *)
Theorem queries_without_options self :
  options self = None →
  (filtered_keys self = Raise AttributeError
   ↔ include self = None ∨ Spec.is_member "*" (include self))
  ∧ (∀ keys,
       filtered_keys self = Ok keys →
       (keys = [] → filtered_values self = Ok [] ∧ filtered_items self = Ok [])
       ∧ (keys ≠ [] →
          filtered_values self = Raise TypeError
          ∧ filtered_items self = Raise TypeError))
  ∧ (∀ values, filtered_values self = Ok values → values = []).
Proof.
  intros Hnone. split; [|split].
  - unfold filtered_keys, options_keys. rewrite Hnone.
    destruct (include self) as [inc|]; [|split; [by left | done]].
    rewrite member_Some. destruct (py_in "*" inc) eqn:Hstar; simpl.
    + apply py_in_true in Hstar. split; [by right | done].
    + apply py_in_false in Hstar. split.
      * destruct (exclude self) as [exc|]; [by destruct (py_in "*" exc)|done].
      * by intros [|].
  - intros keys Hkeys. unfold filtered_values, filtered_items.
    rewrite Hkeys, Hnone. simpl. split; [by intros -> | by destruct keys].
  - intros values. unfold filtered_values. rewrite Hnone.
    destruct (filtered_keys self) as [[|key keys]|e]; simpl; try done.
    by intros [= <-].
Qed.
End composition.

(** *** The theorems at concrete instances *)

(** The first scenario: [a] is listed and accepted, [b] and [c] are
    neither. *)
Lemma filtered_keys_agree_with_filter_abc :
  ∃ keys,
    filtered_keys Examples.abc = Ok keys
    ∧ ("a" ∈ keys ↔ filter Examples.abc "a" = true)
    ∧ ("b" ∈ keys ↔ filter Examples.abc "b" = true).
Proof.
  destruct (filtered_keys_agree_with_filter Examples.abc _ eq_refl)
    as (keys & Hkeys & _ & Hall); [done|].
  exists keys. split; [done|].
  split; apply (Hall ["a"; "c"] eq_refl); by apply py_in_false.
Defined.

Lemma empty_include_list_a :
  filtered_keys Examples.empty_include = Ok []
  ∧ filter Examples.empty_include "a" = true.
Proof.
  destruct (empty_include_list Examples.empty_include eq_refl)
    as (Hkeys & _ & _ & Hfilter).
  split; [done|]. apply Hfilter. intros [Hne _]. apply Hne. by left.
Defined.

Lemma filtered_items_without_include_abc :
  filtered_items Examples.abc_without_b = Ok [("a", 1%Z); ("c", 3%Z)].
Proof.
  destruct (filtered_items_without_include Examples.abc_without_b
              [("a", 1); ("b", 2); ("c", 3)]%Z eq_refl) as [-> _].
  - by apply (bool_decide_unpack (NoDup ["a"; "b"; "c"])).
  - by left.
  - by apply not_member_wildcard.
  - reflexivity.
Defined.

Lemma filtered_items_are_options_abc :
  ∃ items, filtered_items Examples.abc = Ok items ∧ ("a", 1%Z) ∈ items.
Proof.
  destruct (filtered_items_are_options Examples.abc _ eq_refl)
    as (keys & values & items & Hk & _ & Hi & _ & _ & Hin).
  exists items. split; [done|]. apply Hin. split; [|done].
  injection Hk as <-. by left.
Defined.

Lemma filtered_values_without_options_a :
  filtered_keys Examples.no_options_a = Ok ["a"]
  ∧ filtered_values Examples.no_options_a = Raise TypeError.
Proof.
  split; [done|].
  destruct (queries_without_options Examples.no_options_a eq_refl)
    as (_ & Hkeys & _).
  by destruct (Hkeys ["a"] eq_refl) as [_ [-> _]].
Defined.

End OptionsCompositionFacts.

(** ** More on [customize] *)

Module SettingsCompositionFacts.
Import Settings SettingsFacts.

Lemma getattr_children (h : heap) l name v :
  getattr h l name = Ok v → ∃ o, h !! l = Some o ∧ v ∈ children o.
Proof.
  unfold getattr. destruct (h !! l) as [[fields attrs| |]|]; try done.
  destruct (dict_get name attrs) as [v'|] eqn:Hget; [|done].
  intros [= ->]. eexists. split; [done|]. simpl.
  clear -Hget. induction attrs as [|[k x] attrs IH]; [done|].
  simpl in Hget. rewrite fmap_cons. case_decide.
  - injection Hget as ->. by left.
  - right. by apply IH.
Qed.

Lemma take_lookup (h h' : heap) l :
  take (length h) h' = h → l < length h → h' !! l = h !! l.
Proof.
  intros Htake Hl. transitivity (take (length h) h' !! l).
  - by rewrite lookup_take, decide_True.
  - by rewrite Htake.
Qed.

Section customize.
Variable py_format : heap → value → string.

(** A key that the mapping binds to [None] only, or not at all, is left
    alone by the loop over the items. *)
Lemma customize_items_skip items : ∀ h rv h' r name,
  customize_items py_format h rv items = (h', r) →
  (∀ v, (name, v) ∈ items → v = VNone) →
  getattr h' rv name = getattr h rv name.
Proof.
  induction items as [|[key0 v0] items IH]; intros h rv h' r name.
  - by intros [= <- _].
  - rewrite customize_items_step. intros Hloop Hnone.
    assert (∀ v, (name, v) ∈ items → v = VNone) as Hnone'.
    { intros v Hin. apply Hnone. by right. }
    case_decide as Hv0; [by eapply IH|].
    destruct (setattr h rv key0 v0) as [h1|] eqn:Hset;
      [|by injection Hloop as <- _].
    rewrite (IH _ _ _ _ _ Hloop Hnone').
    eapply getattr_setattr_ne; [done|]. intros ->.
    apply Hv0, Hnone. by left.
Qed.

Lemma customize_ignores_other_overrides_aux h self fields attrs l elems :
  h !! self = Some (OModel fields attrs) →
  h !! l = Some (OList elems) →
  customize py_format h self (VRef l)
  = (image h, Ok (VRef (self + length h))).
Proof.
  intros Hself Hl. unfold customize.
  destruct (copy_deep_model _ _ _ _ Hself) as [-> _].
  assert (l < length h) as Hlt by (by eapply lookup_lt_Some).
  simpl. rewrite lookup_app_l, Hl by done. by destruct elems.
Qed.

(** X6.  Overrides that are neither a node nor a mapping (a list, a
    string, a number, a boolean, [None]) are ignored without an error:
    [customize] returns the plain copy of the base. *)
Theorem customize_ignores_other_overrides h self fields attrs custom_settings :
  h !! self = Some (OModel fields attrs) →
  (∀ l, custom_settings = VRef l → ∃ elems, h !! l = Some (OList elems)) →
  customize py_format h self custom_settings
  = (image h, Ok (VRef (self + length h))).
Proof.
  intros Hself Hother.
  destruct custom_settings as [| | | |l].
  5:{ destruct (Hother l eq_refl) as [elems Hl].
      by eapply customize_ignores_other_overrides_aux. }
  all: unfold customize; destruct (copy_deep_model _ _ _ _ Hself) as [-> _];
    simpl; by repeat case_match.
Qed.

(** X7.  The node that [customize] returns has the fields of the base and
    is a new object, and every attribute that the overrides do not set (a
    name that is not a field of the overriding node, or that the
    overriding mapping does not bind or binds to [None]) is the copy of
    the attribute of the base. *)
Theorem customize_keeps_other_attributes h self fields attrs l o h' rv :
  h !! self = Some (OModel fields attrs) →
  h !! l = Some o →
  customize py_format h self (VRef l) = (h', Ok (VRef rv)) →
  rv = self + length h
  ∧ model_at h' rv fields
  ∧ (∀ name,
       match o with
       | OModel fieldsO _ => name ∉ fieldsO
       | ODict items => ∀ v, (name, v) ∈ items → v = VNone
       | OList _ => True
       end →
       getattr h' rv name = shift_value (length h) <$> getattr h self name).
Proof.
  intros Hself Hl.
  assert (self < length h) as Hslt by (by eapply lookup_lt_Some).
  destruct (copy_deep_model _ _ _ _ Hself) as [_ Hrv].
  destruct o as [fieldsO attrsO|items|elems].
  - rewrite (customize_node _ _ _ _ _ _ _ _ Hself Hl).
    destruct (customize_fields _ _ _ _) as [h2 [[]|e]] eqn:Hloop; [|done].
    intros [= <- <-]. split; [done|].
    split; [by apply (customize_fields_frame _ _ _ _ _ _ Hloop)|].
    intros name Hname.
    rewrite (customize_fields_other _ _ _ _ _ _ _ Hloop Hname).
    by apply getattr_image.
  - rewrite (customize_mapping _ _ _ _ _ _ _ Hself Hl).
    destruct (customize_items _ _ _ _) as [h2 [[]|e]] eqn:Hloop; [|done].
    intros [= <- <-]. split; [done|].
    split; [by apply (customize_items_frame _ _ _ _ _ _ Hloop)|].
    intros name Hname.
    rewrite (customize_items_skip _ _ _ _ _ _ Hloop Hname).
    by apply getattr_image.
  - rewrite (customize_ignores_other_overrides_aux _ _ _ _ _ _ Hself Hl).
    intros [= <- <-]. split; [done|]. split; [done|].
    intros name _. by apply getattr_image.
Qed.

Lemma customize_node_applied h self fields attrs l fieldsO attrsO h' rv name :
  h !! self = Some (OModel fields attrs) →
  h !! l = Some (OModel fieldsO attrsO) →
  customize py_format h self (VRef l) = (h', Ok (VRef rv)) →
  name ∈ fieldsO →
  ∃ v, getattr h l name = Ok v ∧ getattr h' rv name = Ok v.
Proof.
  intros Hself Hl.
  assert (self < length h) as Hslt by (by eapply lookup_lt_Some).
  assert (l < length h) as Hlt by (by eapply lookup_lt_Some).
  rewrite (customize_node _ _ _ _ _ _ _ _ Hself Hl).
  destruct (customize_fields _ _ _ _) as [h2 [[]|e]] eqn:Hloop; [|done].
  intros [= <- <-] Hin.
  assert (self + length h ≠ l) as Hne by lia.
  destruct (customize_fields_Ok _ _ _ _ _ Hne Hloop _ Hin) as (v & Hv & Hrv).
  exists v. split; [|done]. by rewrite getattr_extend in Hv.
Qed.

Lemma customize_mapping_applied h self fields attrs l items h' rv key v :
  h !! self = Some (OModel fields attrs) →
  h !! l = Some (ODict items) →
  NoDup (dict_keys items) →
  customize py_format h self (VRef l) = (h', Ok (VRef rv)) →
  (key, v) ∈ items → v ≠ VNone →
  getattr h' rv key = Ok v.
Proof.
  intros Hself Hl Hdup.
  rewrite (customize_mapping _ _ _ _ _ _ _ Hself Hl).
  destruct (customize_items _ _ _ _) as [h2 [[]|e]] eqn:Hloop; [|done].
  intros [= <- <-] Hin Hv.
  pose proof (customize_items_Ok _ _ _ _ _ Hdup Hloop _ _ Hin) as Hkey.
  by rewrite decide_False in Hkey.
Qed.

(** X8.  The values that [customize] takes from the overrides are not
    copied: an object that a field of the overriding node, or a value of
    the overriding mapping, refers to is an object that existed before the
    call, is left as it was, and is one that the returned node gives
    access to. *)
Theorem customize_shares_objects_of_overrides h self fields attrs l o h' rv :
  heap_closed h = true →
  h !! self = Some (OModel fields attrs) →
  h !! l = Some o →
  customize py_format h self (VRef l) = (h', Ok (VRef rv)) →
  ∀ name l',
    match o with
    | OModel fieldsO attrsO =>
        name ∈ fieldsO ∧ dict_get name attrsO = Some (VRef l')
    | ODict items => NoDup (dict_keys items) ∧ (name, VRef l') ∈ items
    | OList _ => False
    end →
    l' < length h ∧ h' !! l' = h !! l' ∧ reachable h' (VRef rv) l'.
Proof.
  intros Hclosed Hself Hl Hcall name l' Hname.
  assert (getattr h' rv name = Ok (VRef l') ∧ VRef l' ∈ children o)
    as [Hget Hchild].
  { destruct o as [fieldsO attrsO|items|elems]; [| |done].
    - destruct Hname as [Hin Hattr].
      destruct (customize_node_applied _ _ _ _ _ _ _ _ _ _ Hself Hl Hcall Hin)
        as (v & Hv & Hrv).
      assert (getattr h l name = Ok (VRef l')) as Hv'.
      { unfold getattr. by rewrite Hl, Hattr. }
      rewrite Hv' in Hv. injection Hv as <-. split; [done|].
      destruct (getattr_children _ _ _ _ Hv') as (o' & Ho' & Hc).
      rewrite Hl in Ho'. by injection Ho' as <-.
    - destruct Hname as [Hdup Hin].
      assert (getattr h' rv name = Ok (VRef l')) as Hrv.
      { by eapply customize_mapping_applied. }
      split; [done|]. simpl.
      apply list_elem_of_fmap. by exists (name, VRef l'). }
  assert (l' < length h) as Hlt.
  { pose proof (heap_closed_lookup _ _ _ _ Hclosed Hl Hchild) as Hc.
    by apply bool_decide_eq_true in Hc. }
  split; [done|]. split.
  - apply take_lookup; [|done].
    pose proof (customize_take py_format h self (VRef l)) as Htake.
    by rewrite Hcall in Htake.
  - destruct (getattr_children _ _ _ _ Hget) as (orv & Horv & Hc).
    eapply reachable_child; [done | done | constructor].
Qed.

(** X9.  [customize] stops at the first override that cannot be applied:
    when every field of the overriding node before [name] is accepted by
    the base (a field of it, or a name of [DUNDER_ATTRIBUTES]) and has a
    value in the overriding node, and [name] is not, the error names
    [name]; when every item of the overriding mapping before the item of
    [key] is bound to [None] or is accepted by the base, and [key] is
    bound to a value other than [None] and is not accepted, the error
    names [key] and its value. *)
Theorem customize_fails_at_first_invalid h self fields attrs l :
  h !! self = Some (OModel fields attrs) →
  (∀ fieldsO attrsO pre name post,
     h !! l = Some (OModel fieldsO attrsO) →
     fieldsO = pre ++ name :: post →
     (∀ f, f ∈ pre →
        (f ∈ DUNDER_ATTRIBUTES ∨ f ∈ fields) ∧ is_Some (dict_get f attrsO)) →
     ((name ∉ DUNDER_ATTRIBUTES) ∧ name ∉ fields)
     ∨ dict_get name attrsO = None →
     ∃ h',
       customize py_format h self (VRef l)
       = (h', Raise (AssertionError ("Invalid setting: " +:+ name))))
  ∧ (∀ items pre key v post,
       h !! l = Some (ODict items) →
       items = pre ++ (key, v) :: post →
       (∀ k v', (k, v') ∈ pre →
          v' = VNone ∨ k ∈ DUNDER_ATTRIBUTES ∨ k ∈ fields) →
       v ≠ VNone → key ∉ DUNDER_ATTRIBUTES → key ∉ fields →
       ∃ h',
         customize py_format h self (VRef l)
         = (h', Raise (AssertionError
                  ("Invalid setting: (" +:+ key +:+ ": "
                     +:+ py_format h' v +:+ ")")))).
Proof.
  intros Hself. split.
  - intros fieldsO attrsO pre name post Hl E Hpre Hbad.
    by eapply customize_node_first.
  - intros items pre key v post Hl E Hpre Hv Hdunder Hkey.
    by eapply customize_mapping_first.
Qed.
End customize.

(** *** The theorems at concrete heaps *)

(** A list as overrides. *)
Lemma customize_ignores_list :
  (customize Examples.show Examples.shared_store 0 (VRef 1)).2 = Ok (VRef 5).
Proof.
  rewrite (customize_ignores_other_overrides Examples.show
             Examples.shared_store 0 _ _ (VRef 1) eq_refl); [done|].
  intros l [= <-]. by eexists.
Defined.

(** [{x: 1, y: 2}] with [{'x': None, 'y': 5}] keeps [x]. *)
Lemma customize_keeps_x :
  getattr (customize Examples.show Examples.store 0 (VRef 2)).1 6 "x"
  = Ok (VInt 1).
Proof.
  destruct (customize_keeps_other_attributes Examples.show Examples.store 0
              _ _ 2 _ _ 6 eq_refl eq_refl eq_refl) as (_ & _ & ->); [done|].
  intros v Hin. apply elem_of_cons in Hin as [[= ->]|Hin]; [done|].
  by apply list_elem_of_singleton in Hin.
Defined.

(** The list at 3, which the overriding node holds, is reached from the
    result. *)
Lemma customize_shares_tags :
  reachable (customize Examples.show Examples.shared_store 0 (VRef 2)).1
    (VRef 5) 3.
Proof.
  destruct (customize_shares_objects_of_overrides Examples.show
              Examples.shared_store 0 _ _ 2 _ _ 5 eq_refl eq_refl eq_refl
              eq_refl "tags" 3) as (_ & _ & Hreach); [|done].
  split; [by apply py_in_true | done].
Defined.

(** Of the two keys that are no fields, the first is reported; a key of
    [DUNDER_ATTRIBUTES] before it is passed over. *)
Lemma customize_reports_first :
  (∃ h',
     customize Examples.show Examples.invalid_store 0 (VRef 1)
     = (h', Raise (AssertionError "Invalid setting: (first: 1)")))
  ∧ (∃ h',
       customize Examples.show Examples.dunder_store 0 (VRef 2)
       = (h', Raise (AssertionError "Invalid setting: (zz: 1)"))).
Proof.
  split.
  - destruct (proj2 (customize_fails_at_first_invalid Examples.show
                       Examples.invalid_store 0 _ _ 1 eq_refl)
                _ [("x", VNone); ("y", VInt 3)] "first" (VInt 1)
                [("second", VInt 2)] eq_refl eq_refl) as [h' Hcall].
    + intros k v Hin.
      apply elem_of_cons in Hin as [[= -> ->]|Hin]; [by left|].
      apply list_elem_of_singleton in Hin as [= -> ->]. right. right.
      by apply py_in_true.
    + done.
    + by apply py_in_false.
    + by apply py_in_false.
    + by exists h'.
  - destruct (proj2 (customize_fails_at_first_invalid Examples.show
                       Examples.dunder_store 0 _ _ 2 eq_refl)
                _ [("__doc__", VStr "x")] "zz" (VInt 1) [] eq_refl eq_refl)
      as [h' Hcall].
    + intros k v Hin. apply list_elem_of_singleton in Hin as [= -> ->].
      right. left. by apply py_in_true.
    + done.
    + by apply py_in_false.
    + by apply py_in_false.
    + by exists h'.
Defined.

End SettingsCompositionFacts.

(** ** More on the pre-validator of [WidgetScatterPlot] *)

Module WidgetScatterPlotCompositionFacts.
Import WidgetScatterPlot WidgetScatterPlotFacts ScatterPlotInput.

Lemma has_color_false (values : gmap string pyval) :
  has_color values = false
  ↔ values !! "color" = None ∨ values !! "color" = Some PNone.
Proof.
  unfold has_color.
  destruct (values !! "color") as [[]|]; split; auto; try done;
    by intros [?|?].
Qed.

Lemma axis_compatibility_no_string name (values : gmap string pyval) :
  no_string name values → axis_compatibility name values = values.
Proof.
  unfold no_string, axis_compatibility. intros Hname.
  destruct (values !! name) as [[]|] eqn:E; try done. by destruct (Hname s).
Qed.

(** What the validator returns, as a mapping. *)
Lemma backwards_compatibility_value (values : gmap string pyval) :
  backwards_compatibility values
  = Ok (axis_compatibility "y" (axis_compatibility "x"
          match values !! "color" with
          | None | Some PNone => values
          | Some color =>
              delete "color"
                (<["markers" := PDict {[ "color" := quantity color ]}]> values)
          end)).
Proof. unfold backwards_compatibility. by rewrite color_compatibility. Qed.

Lemma backwards_compatibility_normal (values r : gmap string pyval) :
  backwards_compatibility values = Ok r →
  has_color r = false ∧ no_string "x" r ∧ no_string "y" r.
Proof.
  rewrite backwards_compatibility_value. intros [= <-].
  set (values1 := match values !! "color" with
                  | None | Some PNone => values
                  | Some _ => _
                  end).
  assert (values1 !! "color" = None ∨ values1 !! "color" = Some PNone)
    as Hcolor.
  { unfold values1.
    destruct (values !! "color") as [[]|] eqn:E; auto;
      left; by rewrite lookup_delete_eq. }
  rewrite has_color_false. unfold no_string.
  rewrite !axis_compatibility_lookup.
  split; [|split].
  - destruct Hcolor as [-> | ->]; auto.
  - intros s. destruct (values1 !! "x") as [[]|]; by repeat case_decide.
  - intros s. destruct (values1 !! "y") as [[]|]; by repeat case_decide.
Qed.

(** X10.  What [backwards_compatibility] returns is in normal form: it
    has no [color] other than [None], and neither [x] nor [y] is a
    string; its keys are those of the input, without [color] and with
    [markers] when the input has a [color] other than [None]. *)
Theorem backwards_compatibility_normal_form (values : gmap string pyval) :
  ∃ r,
    backwards_compatibility values = Ok r
    ∧ has_color r = false ∧ no_string "x" r ∧ no_string "y" r
    ∧ (∀ k,
         is_Some (r !! k)
         ↔ if has_color values
           then k = "markers" ∨ (k ≠ "color" ∧ is_Some (values !! k))
           else is_Some (values !! k)).
Proof.
  destruct (backwards_compatibility values) as [r|e] eqn:Hcall;
    [|by rewrite backwards_compatibility_value in Hcall].
  exists r. split; [done|].
  destruct (backwards_compatibility_normal _ _ Hcall) as (? & ? & ?).
  repeat (split; [done|]).
  rewrite backwards_compatibility_value in Hcall. injection Hcall as <-.
  intros k. rewrite !axis_compatibility_lookup.
  set (values1 := match values !! "color" with
                  | None | Some PNone => values
                  | Some _ => _
                  end).
  assert (is_Some
            match
              match values1 !! k with
              | Some (PStr s) =>
                  if decide (k = "x") then Some (quantity (PStr s))
                  else Some (PStr s)
              | other => other
              end
            with
            | Some (PStr s) =>
                if decide (k = "y") then Some (quantity (PStr s))
                else Some (PStr s)
            | other => other
            end ↔ is_Some (values1 !! k)) as ->.
  { destruct (values1 !! k) as [[]|]; repeat case_decide; by rewrite ?is_Some_alt. }
  unfold values1, has_color.
  destruct (values !! "color") as [color|] eqn:E; [|done].
  assert (is_Some (delete "color"
            (<["markers" := PDict {[ "color" := quantity color ]}]> values)
            !! k)
          ↔ k = "markers" ∨ (k ≠ "color" ∧ is_Some (values !! k))) as Hdom.
  { destruct (decide (k = "color")) as [->|Hc].
    - rewrite lookup_delete_eq. split; [by intros [? ?] | by intros [|[]]].
    - rewrite lookup_delete_ne by done.
      destruct (decide (k = "markers")) as [->|Hm].
      + rewrite lookup_insert_eq. split; [by left | by eexists].
      + rewrite lookup_insert_ne by done. tauto. }
  by destruct color.
Qed.

(** X11.  [backwards_compatibility] is idempotent: applied to what it
    returns, it returns the same mapping. *)
Theorem backwards_compatibility_idempotent (values : gmap string pyval) :
  ∃ r,
    backwards_compatibility values = Ok r
    ∧ backwards_compatibility r = Ok r.
Proof.
  destruct (backwards_compatibility values) as [r|e] eqn:Hcall;
    [|by rewrite backwards_compatibility_value in Hcall].
  exists r. split; [done|].
  destruct (backwards_compatibility_normal _ _ Hcall) as (Hcolor & Hx & Hy).
  apply has_color_false in Hcolor.
  rewrite backwards_compatibility_value.
  assert (match r !! "color" with
          | None | Some PNone => r
          | Some color =>
              delete "color"
                (<["markers" := PDict {[ "color" := quantity color ]}]> r)
          end = r) as ->.
  { by destruct Hcolor as [-> | ->]. }
  by rewrite (axis_compatibility_no_string "x"),
    (axis_compatibility_no_string "y").
Qed.

End WidgetScatterPlotCompositionFacts.

(** ** The pre-validator of [UnitSystem] *)

Module UnitSystemFacts.
Import UnitSystem.

Section dict_more.
Context {V : Type}.
Implicit Types (d : dict V) (k : string) (v : V).

Lemma dict_get_app k d1 d2 :
  dict_get k (d1 ++ d2)
  = match dict_get k d1 with Some v => Some v | None => dict_get k d2 end.
Proof.
  induction d1 as [|[k' v'] d1 IH]; simpl; [done|]. by case_decide.
Qed.

Lemma dict_set_absent k v d :
  dict_contains k d = false → dict_set k v d = d ++ [(k, v)].
Proof.
  unfold dict_contains. induction d as [|[k' v'] d IH]; simpl; [done|].
  case_decide; [done|]. intros Hk. by rewrite IH.
Qed.

Lemma dict_set_set k v d : dict_set k v (dict_set k v d) = dict_set k v d.
Proof.
  induction d as [|[k' v'] d IH]; simpl.
  - by rewrite decide_True.
  - case_decide; simpl; [by rewrite decide_True | by rewrite decide_False, IH].
Qed.

Lemma dict_contains_false k d : dict_contains k d = false ↔ k ∉ dict_keys d.
Proof.
  rewrite <- dict_get_None_keys. unfold dict_contains.
  by destruct (dict_get k d).
Qed.

Lemma dict_keys_app d1 d2 : dict_keys (d1 ++ d2) = dict_keys d1 ++ dict_keys d2.
Proof. unfold dict_keys. by rewrite fmap_app. Qed.
End dict_more.

(** The two tables agree: [SI] has exactly the dimensions, in their
    order, and none twice. *)
Lemma SI_keys : dict_keys SI = dimensions.
Proof. reflexivity. Qed.

Lemma dimensions_NoDup : NoDup dimensions.
Proof. by apply (bool_decide_unpack (NoDup dimensions)). Qed.

#[local] Opaque SI dimensions.

Lemma SI_lookup dimension :
  dimension ∈ dimensions → is_Some (dict_get dimension SI).
Proof.
  rewrite <- SI_keys. intros Hin.
  destruct (dict_get dimension SI) eqn:E; [done|].
  by apply dict_get_None_keys in E.
Qed.

Lemma defaults_for_ext dims (units units' : dict raw) :
  (∀ dimension, dimension ∈ dims →
     dict_contains dimension units' = dict_contains dimension units) →
  defaults_for dims units' = defaults_for dims units.
Proof.
  unfold defaults_for. intros Hsame. f_equal.
  induction dims as [|dimension dims IH]; simpl; [done|].
  rewrite Hsame by (by left). rewrite IH; [done|].
  intros d' ?. apply Hsame. by right.
Qed.

Lemma fill_defaults_cons dimension dims (units : dict raw) :
  fill_defaults (dimension :: dims) units
  = if dict_contains dimension units then fill_defaults dims units
    else match dict_get dimension SI with
         | Some definition =>
             fill_defaults dims
               (dict_set dimension (si_unit definition) units)
         | None => Raise KeyError
         end.
Proof. done. Qed.

Lemma omap_cons_eq {A B} (f : A → option B) (x : A) (l : list A) :
  omap f (x :: l)
  = match f x with Some y => y :: omap f l | None => omap f l end.
Proof. done. Qed.

Lemma defaults_for_cons dimension dims (units : dict raw) :
  defaults_for (dimension :: dims) units
  = if dict_contains dimension units then defaults_for dims units
    else match dict_get dimension SI with
         | Some definition =>
             (dimension, si_unit definition) :: defaults_for dims units
         | None => defaults_for dims units
         end.
Proof.
  unfold defaults_for. simpl List.filter.
  destruct (dict_contains dimension units); [done|]. simpl negb. cbv iota.
  rewrite omap_cons_eq. by destruct (dict_get dimension SI).
Qed.

Lemma fill_defaults_spec dims : ∀ units,
  NoDup dims →
  (∀ dimension, dimension ∈ dims → is_Some (dict_get dimension SI)) →
  fill_defaults dims units = Ok (units ++ defaults_for dims units).
Proof.
  induction dims as [|dimension dims IH]; intros units Hdup HSI.
  - unfold defaults_for. simpl. by rewrite app_nil_r.
  - apply NoDup_cons in Hdup as [Hnot Hdup].
    assert (∀ d', d' ∈ dims → is_Some (dict_get d' SI)) as HSI'.
    { intros d' ?. apply HSI. by right. }
    rewrite fill_defaults_cons, defaults_for_cons.
    destruct (dict_contains dimension units) eqn:Hin; [by rewrite IH|].
    destruct (HSI dimension) as [definition Hdef]; [by left|].
    rewrite Hdef, IH by done.
    rewrite (dict_set_absent _ _ _ Hin), <- app_assoc. simpl. do 3 f_equal.
    apply defaults_for_ext. intros d' Hd'. unfold dict_contains.
    rewrite dict_get_app. destruct (dict_get d' units); [done|]. simpl.
    rewrite decide_False; [done|]. by intros ->.
Qed.

Lemma defaults_for_lookup dims (units : dict raw) dimension :
  dict_get dimension (defaults_for dims units)
  = if bool_decide (dimension ∈ dims) && negb (dict_contains dimension units)
    then si_unit <$> dict_get dimension SI
    else None.
Proof.
  induction dims as [|d dims IH].
  - done.
  - rewrite defaults_for_cons.
    assert (bool_decide (dimension ∈ d :: dims)
            = bool_decide (dimension = d) || bool_decide (dimension ∈ dims))
      as ->.
    { apply eq_true_iff_eq. rewrite orb_true_iff, !bool_decide_eq_true.
      apply elem_of_cons. }
    destruct (decide (dimension = d)) as [->|Hne].
    + rewrite bool_decide_true by done. simpl.
      destruct (dict_contains d units) eqn:Hin.
      * rewrite IH, ?Hin. by rewrite andb_false_r.
      * destruct (dict_get d SI) as [definition|] eqn:Hdef.
        -- simpl. by rewrite decide_True.
        -- rewrite IH, ?Hin, ?Hdef. simpl. by destruct (bool_decide _).
    + rewrite bool_decide_false by done. simpl.
      destruct (dict_contains d units); [done|].
      destruct (dict_get d SI); [|done]. simpl. by rewrite decide_False.
Qed.

Lemma defaults_for_keys dims (units : dict raw) :
  (∀ dimension, dimension ∈ dims → is_Some (dict_get dimension SI)) →
  dict_keys (defaults_for dims units)
  = List.filter (λ dimension, negb (dict_contains dimension units)) dims.
Proof.
  induction dims as [|d dims IH]; intros HSI; [done|].
  rewrite defaults_for_cons. simpl List.filter.
  assert (dict_keys (defaults_for dims units)
          = List.filter (λ dimension, negb (dict_contains dimension units))
              dims) as IH'.
  { apply IH. intros d' ?. apply HSI. by right. }
  destruct (dict_contains d units); [done|].
  destruct (HSI d) as [definition ->]; [by left|]. simpl negb. cbv iota.
  unfold dict_keys in *. rewrite fmap_cons. simpl. by rewrite IH'.
Qed.

(** After the loop every dimension has an entry. *)
Lemma filled_complete (units : dict raw) dimension :
  dimension ∈ dimensions →
  dict_contains dimension (units ++ defaults_for dimensions units) = true.
Proof.
  intros Hin. unfold dict_contains. rewrite dict_get_app.
  destruct (dict_get dimension units) eqn:Hget; [done|].
  rewrite defaults_for_lookup, bool_decide_true by done.
  unfold dict_contains. rewrite Hget. simpl.
  by destruct (SI_lookup _ Hin) as [definition ->].
Qed.

Lemma defaults_for_complete (units : dict raw) :
  (∀ dimension, dimension ∈ dimensions →
     dict_contains dimension units = true) →
  defaults_for dimensions units = [].
Proof.
  intros Hall. unfold defaults_for.
  assert (∀ dims : list string,
            (∀ d, d ∈ dims → dict_contains d units = true) →
            List.filter (λ d, negb (dict_contains d units)) dims = [])
    as Hfilter.
  { induction dims as [|d dims IH]; intros Hdims; [done|]. simpl.
    rewrite Hdims by (by left). simpl. apply IH.
    intros d' ?. apply Hdims. by right. }
  by rewrite Hfilter.
Qed.

Section validator.
Variable ureg_Unit : raw → unit_lookup.
Variable py_format : raw → string.

Lemma check_dimensions_Ok (keys : list string) :
  check_dimensions keys = Ok () ↔ ∀ key, key ∈ keys → key ∈ dimensions.
Proof.
  induction keys as [|key keys IH]; simpl.
  - split; [intros _ key Hin; by apply elem_of_nil in Hin | done].
  - destruct (py_in key dimensions) eqn:Hin.
    + apply py_in_true in Hin. rewrite IH. split.
      * intros Hall k [->|?]%elem_of_cons; auto.
      * intros Hall k ?. apply Hall. by right.
    + apply py_in_false in Hin. split; [done|].
      intros Hall. destruct Hin. apply Hall. by left.
Qed.

Lemma check_dimensions_app (pre rest : list string) :
  (∀ key, key ∈ pre → key ∈ dimensions) →
  check_dimensions (pre ++ rest) = check_dimensions rest.
Proof.
  induction pre as [|key pre IH]; intros Hpre; [done|]. simpl.
  assert (py_in key dimensions = true) as ->.
  { apply py_in_true, Hpre. by left. }
  apply IH. intros k ?. apply Hpre. by right.
Qed.

Lemma check_units_Ok (values : list raw) :
  check_units ureg_Unit py_format values = Ok ()
  ↔ ∀ value, value ∈ values → unit_found ureg_Unit value.
Proof.
  unfold unit_found. induction values as [|value values IH]; simpl.
  - split; [intros _ v Hin; by apply elem_of_nil in Hin | done].
  - destruct (getitem_definition value) as [definition|e] eqn:Hget; simpl.
    + destruct (ureg_Unit definition) eqn:Hunit.
      * rewrite IH. split.
        -- intros Hall v [->|?]%elem_of_cons; eauto.
        -- intros Hall v ?. apply Hall. by right.
      * split; [done|]. intros Hall.
        destruct (Hall value) as (d & Hd1 & Hd2); [by left|].
        rewrite Hget in Hd1. injection Hd1 as <-. congruence.
      * split; [done|]. intros Hall.
        destruct (Hall value) as (d & Hd1 & Hd2); [by left|].
        rewrite Hget in Hd1. injection Hd1 as <-. congruence.
    + split; [done|]. intros Hall.
      destruct (Hall value) as (d & Hd1 & _); [by left|]. congruence.
Qed.

Lemma check_units_app (pre rest : list raw) :
  (∀ value, value ∈ pre → unit_found ureg_Unit value) →
  check_units ureg_Unit py_format (pre ++ rest)
  = check_units ureg_Unit py_format rest.
Proof.
  induction pre as [|value pre IH]; intros Hpre; [done|]. simpl.
  destruct (Hpre value) as (definition & -> & Hunit); [by left|]. simpl.
  rewrite Hunit. apply IH. intros v ?. apply Hpre. by right.
Qed.

(** The validator, once [units] is known to be a mapping. *)
Lemma dimensions_and_si_defaults_units (values : dict raw) units :
  given_units values = RDict units →
  dimensions_and_si_defaults ureg_Unit py_format values
  = match check_dimensions (dict_keys units) with
    | Raise e => Raise e
    | Ok _ =>
        match check_units ureg_Unit py_format
                (units ++ defaults_for dimensions units).*2 with
        | Raise e => Raise e
        | Ok _ =>
            Ok (dict_set "units"
                  (RDict (units ++ defaults_for dimensions units)) values)
        end
    end.
Proof.
  unfold given_units, dimensions_and_si_defaults. intros ->.
  unfold mbind, result_bind.
  rewrite fill_defaults_spec by (apply dimensions_NoDup || apply SI_lookup).
  reflexivity.
Qed.

Lemma dimensions_and_si_defaults_Ok (values values' : dict raw) :
  dimensions_and_si_defaults ureg_Unit py_format values = Ok values' →
  ∃ units,
    given_units values = RDict units
    ∧ (∀ key, key ∈ dict_keys units → key ∈ dimensions)
    ∧ (∀ value, value ∈ (units ++ defaults_for dimensions units).*2 →
         unit_found ureg_Unit value)
    ∧ values'
      = dict_set "units" (RDict (units ++ defaults_for dimensions units))
          values.
Proof.
  destruct (given_units values) as [| | | | |units] eqn:Hunits;
    try (unfold dimensions_and_si_defaults; unfold given_units in Hunits;
         by rewrite Hunits).
  rewrite (dimensions_and_si_defaults_units _ _ Hunits).
  destruct (check_dimensions (dict_keys units)) as [[]|e] eqn:Hdims; [|done].
  destruct (check_units _ _ _) as [[]|e] eqn:Hcheck; [|done].
  intros [= <-]. exists units. split; [done|].
  split; [by apply check_dimensions_Ok|].
  split; [by apply check_units_Ok | done].
Qed.

Lemma elem_of_defaults_for dims (units : dict raw) key value :
  (key, value) ∈ defaults_for dims units →
  key ∈ dims ∧ dict_contains key units = false
  ∧ ∃ definition, dict_get key SI = Some definition
                  ∧ value = si_unit definition.
Proof.
  unfold defaults_for. rewrite list_elem_of_omap.
  intros (dimension & Hin & Hsome).
  apply list_elem_of_In, filter_In in Hin as [Hin Hnot].
  apply list_elem_of_In in Hin. apply negb_true_iff in Hnot.
  destruct (dict_get dimension SI) as [definition|] eqn:Hdef; [|done].
  injection Hsome as <- <-. eauto.
Qed.

Lemma dict_keys_set {V} k (v : V) (d : dict V) :
  dict_keys (dict_set k v d)
  = if dict_contains k d then dict_keys d else dict_keys d ++ [k].
Proof.
  destruct (dict_contains k d) eqn:Hin.
  - unfold dict_contains in Hin. unfold dict_keys.
    induction d as [|[k' v'] d IH]; [done|]. simpl in *.
    case_decide; [done|]. rewrite !fmap_cons. f_equal. by apply IH.
  - by rewrite dict_set_absent, dict_keys_app.
Qed.

(** X12.  When the validator returns, [units] has an entry for each of
    the dimensions and for nothing else; the entries that were given are
    kept as they were, each dimension that was not given has its SI unit,
    and the definition of every entry is a unit of the registry. *)
Theorem units_completed (values values' : dict raw) :
  dimensions_and_si_defaults ureg_Unit py_format values = Ok values' →
  ∃ units units',
    given_units values = RDict units
    ∧ dict_get "units" values' = Some (RDict units')
    ∧ (∀ dimension, dimension ∈ dimensions ↔ dimension ∈ dict_keys units')
    ∧ (∀ key value,
         dict_get key units = Some value → dict_get key units' = Some value)
    ∧ (∀ dimension,
         dimension ∈ dimensions → dict_get dimension units = None →
         ∃ definition,
           dict_get dimension SI = Some definition
           ∧ dict_get dimension units'
             = Some (RDict [("definition", RStr definition)]))
    ∧ (∀ value, value ∈ units'.*2 → unit_found ureg_Unit value).
Proof.
  intros (units & Hunits & Hdims & Hfound & ->)%dimensions_and_si_defaults_Ok.
  exists units, (units ++ defaults_for dimensions units).
  split; [done|]. split; [apply dict_get_set_eq|].
  split; [|split; [|split; [|done]]].
  - intros dimension. split.
    + intros Hin. by apply dict_contains_keys, filled_complete.
    + rewrite dict_keys_app, elem_of_app. intros [Hin|Hin]; [by apply Hdims|].
      apply list_elem_of_fmap in Hin as ([k v] & -> & Hin).
      by apply elem_of_defaults_for in Hin as [? _].
  - intros key value Hget. by rewrite dict_get_app, Hget.
  - intros dimension Hin Hnone.
    destruct (SI_lookup _ Hin) as [definition Hdef].
    exists definition. split; [done|].
    rewrite dict_get_app, Hnone, defaults_for_lookup.
    rewrite bool_decide_true by done. unfold dict_contains.
    by rewrite Hnone, Hdef.
Qed.

(** X13.  The validator keeps the order of what it is given: the entries
    of [units] that were given come first, in their order, and the
    dimensions that were not given follow in the order of [dimensions];
    the other keys of the input keep their values and their places, and
    [units] goes last when the input does not have it. *)
Theorem units_order_and_frame (values values' : dict raw) units :
  dimensions_and_si_defaults ureg_Unit py_format values = Ok values' →
  given_units values = RDict units →
  ∃ units',
    dict_get "units" values' = Some (RDict units')
    ∧ dict_keys units'
      = dict_keys units
        ++ List.filter (λ dimension, negb (dict_contains dimension units))
             dimensions
    ∧ (∀ key, key ≠ "units" → dict_get key values' = dict_get key values)
    ∧ dict_keys values'
      = if dict_contains "units" values then dict_keys values
        else dict_keys values ++ ["units"].
Proof.
  intros (units0 & Hunits & _ & _ & ->)%dimensions_and_si_defaults_Ok Hgiven.
  rewrite Hgiven in Hunits. injection Hunits as <-.
  exists (units ++ defaults_for dimensions units).
  split; [apply dict_get_set_eq|]. split; [|split].
  - rewrite dict_keys_app, defaults_for_keys; [done|]. apply SI_lookup.
  - intros key Hne. by apply dict_get_set_ne.
  - apply dict_keys_set.
Qed.

(** X14.  A key of [units] that is not one of the dimensions is refused
    before any unit is looked at: the error names the first such key and
    lists the dimensions, whatever the definitions are. *)
Theorem unsupported_dimension_rejected (values : dict raw) units pre key post :
  given_units values = RDict units →
  dict_keys units = pre ++ key :: post →
  (∀ k, k ∈ pre → k ∈ dimensions) →
  key ∉ dimensions →
  dimensions_and_si_defaults ureg_Unit py_format values
  = Raise (AssertionError
      ("Unsupported dimension " +:+ dquote +:+ key +:+ dquote
         +:+ " used in a unit system. The supported dimensions are: "
         +:+ py_repr_strings dimensions +:+ ".")).
Proof.
  intros Hunits Hkeys Hpre Hkey.
  rewrite (dimensions_and_si_defaults_units _ _ Hunits), Hkeys.
  rewrite check_dimensions_app by done. simpl.
  apply py_in_false in Hkey. by rewrite Hkey.
Qed.

(** The last loop over the entries that were given and then the
    defaults. *)
Lemma check_given_first (values : dict raw) units pre value post :
  given_units values = RDict units →
  (∀ k, k ∈ dict_keys units → k ∈ dimensions) →
  units.*2 = pre ++ value :: post →
  (∀ v, v ∈ pre → unit_found ureg_Unit v) →
  dimensions_and_si_defaults ureg_Unit py_format values
  = match check_units ureg_Unit py_format
            (value :: post ++ (defaults_for dimensions units).*2) with
    | Raise e => Raise e
    | Ok _ =>
        Ok (dict_set "units"
              (RDict (units ++ defaults_for dimensions units)) values)
    end.
Proof.
  intros Hunits Hdims Hvalues Hpre.
  rewrite (dimensions_and_si_defaults_units _ _ Hunits).
  apply check_dimensions_Ok in Hdims as ->.
  by rewrite fmap_app, Hvalues, <- app_assoc, check_units_app.
Qed.

Lemma check_units_cons (value : raw) (values : list raw) :
  check_units ureg_Unit py_format (value :: values)
  = match getitem_definition value with
    | Ok definition =>
        match ureg_Unit definition with
        | UnitFound => check_units ureg_Unit py_format values
        | UndefinedUnitError =>
            Raise (AssertionError
              ("Unsupported unit " +:+ dquote +:+ py_format definition
                 +:+ dquote +:+ " used in a unit registry."))
        | UnitFailed e => Raise e
        end
    | Raise e => Raise e
    end.
Proof. done. Qed.

(** X15.  With supported dimensions only, the first entry that was given
    whose definition the registry does not have is refused, before any
    default is looked at: the error names that definition. *)
Theorem unsupported_unit_rejected (values : dict raw) units pre value
    definition post :
  given_units values = RDict units →
  (∀ k, k ∈ dict_keys units → k ∈ dimensions) →
  units.*2 = pre ++ value :: post →
  (∀ v, v ∈ pre → unit_found ureg_Unit v) →
  getitem_definition value = Ok definition →
  ureg_Unit definition = UndefinedUnitError →
  dimensions_and_si_defaults ureg_Unit py_format values
  = Raise (AssertionError
      ("Unsupported unit " +:+ dquote +:+ py_format definition +:+ dquote
         +:+ " used in a unit registry.")).
Proof.
  intros Hunits Hdims Hvalues Hpre Hget Hunit.
  rewrite (check_given_first _ _ _ _ _ Hunits Hdims Hvalues Hpre).
  by rewrite check_units_cons, Hget, Hunit.
Qed.

(** X16.  Only [AssertionError] is made by the validator itself: an entry
    of [units] that is not a mapping raises [TypeError], a mapping without
    a [definition] raises [KeyError], and what the registry raises other
    than [UndefinedUnitError] is passed on. *)
Theorem malformed_unit_raises (values : dict raw) units pre value post :
  given_units values = RDict units →
  (∀ k, k ∈ dict_keys units → k ∈ dimensions) →
  units.*2 = pre ++ value :: post →
  (∀ v, v ∈ pre → unit_found ureg_Unit v) →
  ((∀ items, value ≠ RDict items) →
   dimensions_and_si_defaults ureg_Unit py_format values = Raise TypeError)
  ∧ (∀ items,
       value = RDict items → dict_get "definition" items = None →
       dimensions_and_si_defaults ureg_Unit py_format values = Raise KeyError)
  ∧ (∀ definition e,
       getitem_definition value = Ok definition →
       ureg_Unit definition = UnitFailed e →
       dimensions_and_si_defaults ureg_Unit py_format values = Raise e).
Proof.
  intros Hunits Hdims Hvalues Hpre.
  rewrite (check_given_first _ _ _ _ _ Hunits Hdims Hvalues Hpre).
  rewrite check_units_cons. split; [|split].
  - intros Hvalue.
    destruct value as [| | | | |items]; try done. by destruct (Hvalue items).
  - intros items -> Hnone. simpl. by rewrite Hnone.
  - intros definition e Hget Hunit. by rewrite Hget, Hunit.
Qed.

(** X17.  The validator is idempotent: applied to what it returns, it
    returns the same mapping. *)
Theorem dimensions_and_si_defaults_idempotent (values values' : dict raw) :
  dimensions_and_si_defaults ureg_Unit py_format values = Ok values' →
  dimensions_and_si_defaults ureg_Unit py_format values' = Ok values'.
Proof.
  intros (units & Hunits & Hdims & Hfound & ->)%dimensions_and_si_defaults_Ok.
  set (filled := units ++ defaults_for dimensions units) in *.
  assert (given_units (dict_set "units" (RDict filled) values) = RDict filled)
    as Hfilled.
  { unfold given_units. by rewrite dict_get_set_eq. }
  rewrite (dimensions_and_si_defaults_units _ _ Hfilled).
  assert (defaults_for dimensions filled = []) as ->.
  { apply defaults_for_complete. intros dimension ?.
    by apply filled_complete. }
  rewrite app_nil_r.
  assert (check_dimensions (dict_keys filled) = Ok ()) as ->.
  { apply check_dimensions_Ok. intros key.
    unfold filled. rewrite dict_keys_app, elem_of_app.
    intros [Hin|Hin]; [by apply Hdims|].
    apply list_elem_of_fmap in Hin as ([k v] & -> & Hin).
    by apply elem_of_defaults_for in Hin as [? _]. }
  apply check_units_Ok in Hfound as ->. by rewrite dict_set_set.
Qed.

(** X18.  Without a [units] key, and with the SI units in the registry,
    the validator adds [units] with the SI unit of every dimension, in the
    order of [dimensions]; with [units] bound to [None], or to anything
    else that is not a mapping, it raises [AttributeError]. *)
Theorem units_absent_or_not_a_mapping (values : dict raw) :
  (dict_get "units" values = None →
   (∀ dimension definition,
      (dimension, definition) ∈ SI → ureg_Unit (RStr definition) = UnitFound) →
   dimensions_and_si_defaults ureg_Unit py_format values
   = Ok (values
           ++ [("units",
                RDict ((λ entry,
                          (entry.1, RDict [("definition", RStr entry.2)]))
                         <$> SI))]))
  ∧ (∀ value,
       dict_get "units" values = Some value →
       (∀ items, value ≠ RDict items) →
       dimensions_and_si_defaults ureg_Unit py_format values
       = Raise AttributeError).
Proof.
  split.
  - intros Hnone Hregistry.
    assert (given_units values = RDict []) as Hunits.
    { unfold given_units. by rewrite Hnone. }
    rewrite (dimensions_and_si_defaults_units _ _ Hunits). simpl.
    assert (defaults_for dimensions []
            = (λ entry, (entry.1, si_unit entry.2)) <$> SI) as ->.
    { by vm_compute. }
    assert (check_units ureg_Unit py_format
              ((λ entry : string * string, (entry.1, si_unit entry.2))
                 <$> SI).*2 = Ok ()) as ->.
    { apply check_units_Ok. intros value.
      rewrite <- list_fmap_compose.
      intros ([dimension definition] & -> & Hin)%list_elem_of_fmap.
      exists (RStr definition). split; [done|]. by eapply Hregistry. }
    rewrite dict_set_absent; [done|].
    unfold dict_contains. by rewrite Hnone.
  - intros value Hsome Hvalue. unfold dimensions_and_si_defaults.
    rewrite Hsome. simpl.
    destruct value as [| | | | |items]; try done. by destruct (Hvalue items).
Qed.

(** X19.  The validator returns whenever [units] is a mapping whose keys
    are dimensions and whose entries have definitions in the registry,
    and the registry has the SI unit of each dimension that is not
    given. *)
Theorem dimensions_and_si_defaults_returns (values : dict raw) units :
  given_units values = RDict units →
  (∀ k, k ∈ dict_keys units → k ∈ dimensions) →
  (∀ v, v ∈ units.*2 → unit_found ureg_Unit v) →
  (∀ dimension definition,
     dimension ∈ dimensions → dimension ∉ dict_keys units →
     dict_get dimension SI = Some definition →
     ureg_Unit (RStr definition) = UnitFound) →
  dimensions_and_si_defaults ureg_Unit py_format values
  = Ok (dict_set "units"
          (RDict (units ++ defaults_for dimensions units)) values).
Proof.
  intros Hunits Hdims Hgiven Hsi.
  rewrite (dimensions_and_si_defaults_units _ _ Hunits).
  apply check_dimensions_Ok in Hdims as ->.
  assert (check_units ureg_Unit py_format
            (units ++ defaults_for dimensions units).*2 = Ok ()) as ->; [|done].
  apply check_units_Ok. intros value. rewrite fmap_app, elem_of_app.
  intros [Hin|Hin]; [by apply Hgiven|].
  apply list_elem_of_fmap in Hin as ([k v] & -> & Hin).
  apply elem_of_defaults_for in Hin as (Hk & Hnot & definition & Hdef & ->).
  exists (RStr definition). split; [done|].
  eapply Hsi; [done | by apply dict_contains_false | done].
Qed.
End validator.

(** *** The theorems at concrete inputs *)

Abbreviation validate :=
  (dimensions_and_si_defaults Examples.registry Examples.show_raw).

Lemma custom_units_found :
  ∀ v, v ∈ [si_unit "Å"; si_unit "eV"] → unit_found Examples.registry v.
Proof.
  intros v [->|Hv]%elem_of_cons; [by exists (RStr "Å")|].
  apply list_elem_of_singleton in Hv as ->. by exists (RStr "eV").
Qed.

Lemma custom_units_dimensions :
  ∀ k, k ∈ ["length"; "energy"] → k ∈ dimensions.
Proof. intros k Hk. apply py_in_true. revert k Hk. by apply Forall_forall;
  repeat constructor. Qed.

(** The custom system keeps its length and gets the SI mass. *)
Lemma custom_units_completed :
  ∃ values' units',
    validate Examples.custom_units = Ok values'
    ∧ dict_get "units" values' = Some (RDict units')
    ∧ dict_get "length" units'
      = Some (RDict [("definition", RStr "Å")])
    ∧ dict_get "mass" units'
      = Some (RDict [("definition", RStr "kg")]).
Proof.
  destruct (validate Examples.custom_units) as [values'|e] eqn:Hcall;
    [|by vm_compute in Hcall].
  destruct (units_completed _ _ _ _ Hcall)
    as (units & units' & Hgiven & Hunits & _ & Hkept & Hdefault & _).
  injection Hgiven as <-.
  exists values', units'. split; [done|]. split; [done|].
  split; [by apply Hkept|].
  destruct (Hdefault "mass") as (definition & Hdef & ->); [| done |].
  - by apply py_in_true.
  - vm_compute in Hdef. by injection Hdef as <-.
Defined.

Lemma custom_units_order :
  ∃ values' units',
    validate Examples.custom_units = Ok values'
    ∧ dict_get "units" values' = Some (RDict units')
    ∧ take 4 (dict_keys units') = ["length"; "energy"; "dimensionless"; "mass"]
    ∧ dict_keys values' = ["label"; "units"].
Proof.
  destruct (validate Examples.custom_units) as [values'|e] eqn:Hcall;
    [|by vm_compute in Hcall].
  destruct (units_order_and_frame _ _ _ _ _ Hcall eq_refl)
    as (units' & Hunits & Hkeys & _ & Hvalues).
  exists values', units'. split; [done|]. split; [done|].
  rewrite Hkeys, Hvalues. split; by vm_compute.
Defined.

(** Of [colour] and [size], the first is refused, although [parsec] is not
    a unit of the registry. *)
Lemma colour_rejected :
  validate Examples.colour_units
  = Raise (AssertionError
      ("Unsupported dimension " +:+ dquote +:+ "colour" +:+ dquote
         +:+ " used in a unit system. The supported dimensions are: "
         +:+ py_repr_strings dimensions +:+ ".")).
Proof.
  apply (unsupported_dimension_rejected Examples.registry Examples.show_raw
           Examples.colour_units _ ["length"] "colour" ["size"] eq_refl
           eq_refl).
  - intros k Hk. apply list_elem_of_singleton in Hk as ->.
    by apply py_in_true.
  - by apply py_in_false.
Defined.

Lemma fortnight_rejected :
  validate Examples.fortnight_units
  = Raise (AssertionError
      ("Unsupported unit " +:+ dquote +:+ "fortnight" +:+ dquote
         +:+ " used in a unit registry.")).
Proof.
  apply (unsupported_unit_rejected Examples.registry Examples.show_raw
           Examples.fortnight_units _ [si_unit "Å"] (si_unit "fortnight")
           (RStr "fortnight") [] eq_refl).
  - intros k Hk. apply py_in_true. revert k Hk.
    by apply Forall_forall; repeat constructor.
  - done.
  - intros v Hv. apply list_elem_of_singleton in Hv as ->.
    by exists (RStr "Å").
  - done.
  - done.
Defined.

(** A unit given as a string and not as a mapping. *)
Lemma string_unit_raises :
  validate Examples.string_units = Raise TypeError.
Proof.
  apply (proj1 (malformed_unit_raises Examples.registry Examples.show_raw
                  Examples.string_units _ [] (RStr "m") [] eq_refl
                  ltac:(intros k Hk; apply list_elem_of_singleton in Hk as ->;
                        by apply py_in_true)
                  eq_refl
                  ltac:(intros v Hv; by apply elem_of_nil in Hv))).
  done.
Defined.

Lemma custom_units_idempotent :
  ∃ values',
    validate Examples.custom_units = Ok values'
    ∧ validate values' = Ok values'.
Proof.
  destruct (validate Examples.custom_units) as [values'|e] eqn:Hcall;
    [|by vm_compute in Hcall].
  exists values'. split; [done|].
  by apply (dimensions_and_si_defaults_idempotent _ _ Examples.custom_units).
Defined.

Lemma custom_units_returns :
  ∃ values', validate Examples.custom_units = Ok values'.
Proof.
  eexists.
  apply (dimensions_and_si_defaults_returns Examples.registry
           Examples.show_raw Examples.custom_units _ eq_refl
           custom_units_dimensions custom_units_found).
  intros dimension definition Hin _ Hdef.
  unfold Examples.registry.
  assert (py_in definition (SI.*2 ++ ["Å"; "fs"; "eV"; "GPa"]) = true) as ->;
    [|done].
  apply py_in_true, elem_of_app. left.
  apply list_elem_of_fmap. exists (dimension, definition). split; [done|].
  clear Hin. revert Hdef. generalize SI.
  induction d as [|[k v] d IH]; simpl; [done|].
  case_decide; [intros [= ->]; subst; by left | right; by apply IH].
Defined.

(** [{'label': 'SI'}] gets the SI unit of every dimension, and
    [{'units': None}] raises. *)
Lemma units_absent_si :
  validate [("label", RStr "SI")]
  = Ok [ ("label", RStr "SI");
         ("units",
          RDict ((λ entry, (entry.1, RDict [("definition", RStr entry.2)]))
                   <$> SI)) ]
  ∧ validate [("units", RNone)] = Raise AttributeError.
Proof.
  split.
  - apply (proj1 (units_absent_or_not_a_mapping Examples.registry
                    Examples.show_raw [("label", RStr "SI")])); [done|].
    intros dimension definition Hin. unfold Examples.registry.
    assert (py_in definition (SI.*2 ++ ["Å"; "fs"; "eV"; "GPa"]) = true)
      as ->; [|done].
    apply py_in_true, elem_of_app. left.
    apply list_elem_of_fmap. by exists (dimension, definition).
  - apply (proj2 (units_absent_or_not_a_mapping Examples.registry
                    Examples.show_raw [("units", RNone)]) RNone); done.
Defined.

End UnitSystemFacts.
